(** * The [watcher] command (package main)

    A shallow embedding of the command's [main] function: the flag record,
    the Go string helpers it calls, the sequential set-up of the main
    goroutine as a state/error computation over an abstract watcher, and the
    goroutines it spawns (event reader, signal handler, start-up command) as
    an interleaving transition system. *)

From Stdlib Require Import List String Ascii NArith ZArith Bool Lia.
Import ListNotations.

Set Implicit Arguments.

(** ** Go strings

    A Go string is read here as the sequence of runes that [range],
    [strings.FieldsFunc] and [strings.TrimSpace] decode from it; a rune is a
    code point. [s != ""] is [s <> []]. *)

Module GoStr.

Definition rune := N.
Definition gostring := list rune.

(** unicode.IsSpace: the Latin-1 switch, then the White_Space table. *)
Definition IsSpace (r : rune) : bool :=
  if (r <=? 255)%N then
    (r =? 9)%N || (r =? 10)%N || (r =? 11)%N || (r =? 12)%N || (r =? 13)%N
    || (r =? 32)%N || (r =? 133)%N || (r =? 160)%N
  else
    (r =? 5760)%N
    || ((8192 <=? r)%N && (r <=? 8202)%N)
    || (r =? 8232)%N || (r =? 8233)%N
    || (r =? 8239)%N || (r =? 8287)%N || (r =? 12288)%N.

(** The loop of strings.FieldsFunc. [cur] is the field being read
    ([start >= 0] in the source), [spans] the fields already closed. *)
Fixpoint fieldsLoop (f : rune -> bool) (s : gostring)
    (cur : option gostring) (spans : list gostring) : list gostring :=
  match s with
  | [] =>
      match cur with
      | Some fld => spans ++ [fld]
      | None => spans
      end
  | r :: s' =>
      if f r then
        match cur with
        | Some fld => fieldsLoop f s' None (spans ++ [fld])
        | None => fieldsLoop f s' None spans
        end
      else
        match cur with
        | Some fld => fieldsLoop f s' (Some (fld ++ [r])) spans
        | None => fieldsLoop f s' (Some [r]) spans
        end
  end.

Definition FieldsFunc (s : gostring) (f : rune -> bool) : list gostring :=
  fieldsLoop f s None [].

(** strings.Split(s, sep) for a one-rune separator: the pieces between the
    separators, so the empty string gives one empty piece. *)
Fixpoint Split (s : gostring) (sep : rune) : list gostring :=
  match s with
  | [] => [[]]
  | r :: s' =>
      if (r =? sep)%N then [] :: Split s' sep
      else
        match Split s' sep with
        | piece :: rest => (r :: piece) :: rest
        | [] => [[r]]
        end
  end.

Fixpoint trimLeft (f : rune -> bool) (s : gostring) : gostring :=
  match s with
  | [] => []
  | r :: s' => if f r then trimLeft f s' else s
  end.

Definition trimRight (f : rune -> bool) (s : gostring) : gostring :=
  rev (trimLeft f (rev s)).

(** strings.TrimSpace *)
Definition TrimSpace (s : gostring) : gostring :=
  trimRight IsSpace (trimLeft IsSpace s).

Definition isEmpty (s : gostring) : bool :=
  match s with [] => true | _ :: _ => false end.

Definition comma : rune := 44%N.

(** ASCII literals, for examples. *)
Definition lit (s : string) : gostring :=
  map N_of_ascii (list_ascii_of_string s).

End GoStr.

Import GoStr.

(** ** Errors, processes and the watcher package *)

(** Go's [error] values. [==] on them is identity: the one exported value
    [watcher.ErrWatchedFileDeleted] is equal only to itself. *)
Inductive error :=
| ErrWatchedFileDeleted
| ErrOther (msg : gostring).

Definition isErrWatchedFileDeleted (err : error) : bool :=
  match err with
  | ErrWatchedFileDeleted => true
  | ErrOther _ => false
  end.

Inductive result (A : Type) :=
| Ok (a : A)
| Err (e : error).
Arguments Ok {A} a.
Arguments Err {A} e.

(** os.ProcessState, as far as [Success] reads it. *)
Record ProcessState := { ExitCode : Z }.

Definition Success (ps : ProcessState) : bool := (ExitCode ps =? 0)%Z.

(** What [c.Run()] leaves behind: the returned error and [c.ProcessState]
    (nil when no process state was ever produced). *)
Record RunResult := {
  run_err : option error;
  run_state : option ProcessState
}.

Inductive Stdin :=
| OsStdin
| StringReader (s : gostring).

Inductive Signal := Interrupt | Kill.

Module Watcher.

(** Modelled from the spec: the package's event kinds (section 3), whose
    declaration is missing from the sources at hand. *)
Inductive Op := Create | Write | Remove | Rename | Move | Chmod.

(** Modelled from the spec: the FileRecord of section 3. *)
Record FileRecord := {
  fr_path : gostring;
  fr_name : gostring;
  fr_size : Z;
  fr_mode : N;
  fr_modTime : Z;
  fr_isDir : bool
}.

(** Modelled from the spec: the Event value of section 3. *)
Record Event := {
  ev_op : Op;
  ev_path : gostring;
  ev_oldPath : gostring;
  ev_file : option FileRecord
}.

(** Modelled from the spec: the engine surface of section 6 that [main]
    calls before [Start], as state passing over the watcher object. Each
    fallible call returns the error it reports (nil is [None]). *)
Record Impl := {
  state : Type;
  New : state;
  IgnoreHiddenFiles : bool -> state -> state;
  Ignore : gostring -> state -> state * option error;
  Add : gostring -> state -> state * option error;
  AddRecursive : gostring -> state -> state * option error;
  WatchedFiles : state -> list (gostring * gostring);
  Event_String : Event -> gostring
}.

End Watcher.

Import Watcher.

(** ** Observable actions *)

Inductive Goroutine := GMain | GReader | GSignal | GStartup.

Inductive Action :=
| CallNew
| CallIgnoreHiddenFiles (b : bool)
| CallIgnore (path : gostring) (ret : option error)
| CallAdd (path : gostring) (ret : option error)
| CallAddRecursive (path : gostring) (ret : option error)
| CallStart (d : Z)
| CallClose
| GoStmt (g : Goroutine)
| SignalNotify (sigs : list Signal)
| PrintEvent (e : Event)
| PrintError (e : error)
| PrintFile (path name : gostring)
| PrintBlank
| PrintWatching (n : nat)
| PrintWatcherClosed
| LogPrintln (e : error)
| LogFatalln (e : error)
| ExecRun (name : gostring) (args : list gostring) (stdin : Stdin) (r : RunResult).

(** How a goroutine can end the whole process. *)
Inductive Halt :=
| Fatal (e : error)      (* log.Fatalln: print, then exit status 1 *)
| Panic.                 (* run-time panic: index out of range *)

(** ** Command line *)

Record Flags := {
  interval : gostring;
  recursive : bool;
  dotfiles : bool;
  cmd : gostring;
  startcmd : bool;
  listFiles : bool;
  stdinPipe : bool;
  keepalive : bool;
  ignore : gostring
}.

(** flag defaults: -interval 100ms -recursive -dotfiles, the rest unset. *)
Definition defaultFlags : Flags :=
  {| interval := lit "100ms"; recursive := true; dotfiles := true;
     cmd := []; startcmd := false; listFiles := false; stdinPipe := false;
     keepalive := false; ignore := [] |}.

(** The operating system and library calls whose answers [main] only
    branches on. *)
Record Env := {
  Getwd : result gostring;
  ParseDuration : gostring -> result Z
}.

(** Variables the goroutines capture from [main]. *)
Record Captured := {
  cmdName : gostring;
  cmdArgs : list gostring
}.

Definition isExecRun (a : Action) : bool :=
  match a with ExecRun _ _ _ _ => true | _ => false end.

Definition ignoreCall (a : Action) : option (gostring * option error) :=
  match a with CallIgnore p r => Some (p, r) | _ => None end.


Fixpoint pick {A B : Type} (f : A -> option B) (l : list A) : list B :=
  match l with
  | [] => []
  | a :: l' =>
      match f a with
      | Some b => b :: pick f l'
      | None => pick f l'
      end
  end.

(** ** The main goroutine up to the call of [Start] *)

Section Main.

Variable impl : Impl.
Variable env : Env.
Variable flags : Flags.
Variable args : list gostring.       (* flag.Args() *)

(** State threaded through [main]: the watcher object and what has been
    done so far, oldest first. *)
Record MainSt := {
  watcher : state impl;
  done_actions : list Action
}.

Definition M (A : Type) : Type := MainSt -> (Halt + A) * MainSt.

Definition ret {A} (a : A) : M A := fun st => (inr a, st).

Definition bind {A B} (m : M A) (k : A -> M B) : M B :=
  fun st =>
    match m st with
    | (inl h, st') => (inl h, st')
    | (inr a, st') => k a st'
    end.

Definition act (a : Action) : M unit :=
  fun st => (inr tt, {| watcher := watcher st; done_actions := done_actions st ++ [a] |}).

Definition fatalln {A} (e : error) : M A :=
  fun st => (inl (Fatal e),
             {| watcher := watcher st; done_actions := done_actions st ++ [LogFatalln e] |}).

Definition panic {A} : M A := fun st => (inl Panic, st).

Definition getWatcher : M (state impl) := fun st => (inr (watcher st), st).

Definition putWatcher (w : state impl) : M unit :=
  fun st => (inr tt, {| watcher := w; done_actions := done_actions st |}).

Notation "x <- m ;; k" := (bind m (fun x => k))
  (at level 61, m at next level, right associativity).
Notation "m ;;; k" := (bind m (fun _ => k))
  (at level 61, right associativity).

(** A fallible watcher call: run it on the object, log it with what it
    returned. *)
Definition call (f : gostring -> state impl -> state impl * option error)
    (mk : gostring -> option error -> Action) (path : gostring) : M (option error) :=
  w <- getWatcher ;;
  let (w', r) := f path w in
  putWatcher w' ;;;
  act (mk path r) ;;;
  ret r.

(** Lines 74-84. *)
Definition resolveFiles : M (list gostring) :=
  let files := args in
  match files with
  | [] =>
      match Getwd env with
      | Err e => fatalln e
      | Ok curDir => ret (files ++ [curDir])
      end
  | _ :: _ => ret files
  end.

(** Lines 86-94. [split[0]] is a checked index. *)
Definition parseCmd : M Captured :=
  if negb (isEmpty (cmd flags)) then
    let split := FieldsFunc (cmd flags) IsSpace in
    match nth_error split 0 with
    | None => panic
    | Some name =>
        ret {| cmdName := name;
               cmdArgs := if (1 <? List.length split)%nat then skipn 1 split else [] |}
    end
  else ret {| cmdName := []; cmdArgs := [] |}.

(** Lines 103-113. *)
Fixpoint ignoreLoop (paths : list gostring) : M unit :=
  match paths with
  | [] => ret tt
  | path :: rest =>
      let trimmed := TrimSpace path in
      if isEmpty trimmed then ignoreLoop rest
      else
        r <- call (Ignore impl) CallIgnore trimmed ;;
        match r with
        | Some e => fatalln e
        | None => ignoreLoop rest
        end
  end.

(** Lines 156-166. *)
Fixpoint addLoop (files : list gostring) : M unit :=
  match files with
  | [] => ret tt
  | file :: rest =>
      r <- (if recursive flags
            then call (AddRecursive impl) CallAddRecursive file
            else call (Add impl) CallAdd file) ;;
      match r with
      | Some e => fatalln e
      | None => addLoop rest
      end
  end.

Fixpoint printFiles (l : list (gostring * gostring)) : M unit :=
  match l with
  | [] => ret tt
  | (path, name) :: l' => act (PrintFile path name) ;;; printFiles l'
  end.

(** Lines 168-176. *)
Definition report : M unit :=
  (if listFiles flags then
     w <- getWatcher ;;
     printFiles (WatchedFiles impl w) ;;;
     act PrintBlank
   else ret tt) ;;;
  w <- getWatcher ;;
  act (PrintWatching (List.length (WatchedFiles impl w))).

(** [main] from flag.Parse to the call of [w.Start], in source order. *)
Definition mainSetup : M Captured :=
  files <- resolveFiles ;;
  cap <- parseCmd ;;
  act CallNew ;;;
  w <- getWatcher ;;
  putWatcher (IgnoreHiddenFiles impl (negb (dotfiles flags)) w) ;;;
  act (CallIgnoreHiddenFiles (negb (dotfiles flags))) ;;;
  ignoreLoop (Split (ignore flags) comma) ;;;
  act (GoStmt GReader) ;;;
  addLoop files ;;;
  report ;;;
  parsedInterval <- match ParseDuration env (interval flags) with
                    | Err e => fatalln e
                    | Ok d => ret d
                    end ;;
  act (SignalNotify [Kill; Interrupt]) ;;;
  act (GoStmt GSignal) ;;;
  act (GoStmt GStartup) ;;;
  act (CallStart parsedInterval) ;;;
  ret cap.

Definition runMain : (Halt + Captured) * MainSt :=
  mainSetup {| watcher := New impl; done_actions := [] |}.

End Main.

(** ** The goroutines *)

Inductive Ctl :=
| Continue               (* next iteration of the loop *)
| Return                 (* the goroutine's function returns *)
| Exit (h : Halt).       (* the process ends *)

Inductive SelectCase :=
| CaseEvent (event : Event)     (* case event := <-w.Event *)
| CaseError (err : error)       (* case err := <-w.Error *)
| CaseClosed.                   (* case <-w.Closed *)

Inductive Proc :=
| Running
| Exited                 (* main returned *)
| Died (h : Halt).

Inductive MainPc := MSetup | MInStart | MWaitClosed | MReturned.
Inductive ReaderPc := RNotSpawned | RSelect | RReturned.
Inductive SignalPc := SNotSpawned | SWaitSignal | SCallClose | SWaitDone | SReturned.
Inductive StartupPc := UNotSpawned | UReady | UReturned.

(** The process after set-up: where each goroutine stands, the two
    channels of [main] ([done], [closed]: true once closed), the watcher as
    far as shutdown goes, and everything done so far, oldest first. *)
Record Sys := {
  proc : Proc;
  mainPc : MainPc;
  readerPc : ReaderPc;
  signalPc : SignalPc;
  startupPc : StartupPc;
  done : bool;
  closed : bool;
  closeCalled : bool;
  watcherClosed : bool;
  trace : list (Goroutine * Action)
}.

Definition set_proc (x : Proc) (s : Sys) : Sys :=
  {| proc := x; mainPc := mainPc s; readerPc := readerPc s;
     signalPc := signalPc s; startupPc := startupPc s; done := done s;
     closed := closed s; closeCalled := closeCalled s;
     watcherClosed := watcherClosed s; trace := trace s |}.

Definition set_mainPc (x : MainPc) (s : Sys) : Sys :=
  {| proc := proc s; mainPc := x; readerPc := readerPc s;
     signalPc := signalPc s; startupPc := startupPc s; done := done s;
     closed := closed s; closeCalled := closeCalled s;
     watcherClosed := watcherClosed s; trace := trace s |}.

Definition set_readerPc (x : ReaderPc) (s : Sys) : Sys :=
  {| proc := proc s; mainPc := mainPc s; readerPc := x;
     signalPc := signalPc s; startupPc := startupPc s; done := done s;
     closed := closed s; closeCalled := closeCalled s;
     watcherClosed := watcherClosed s; trace := trace s |}.

Definition set_signalPc (x : SignalPc) (s : Sys) : Sys :=
  {| proc := proc s; mainPc := mainPc s; readerPc := readerPc s;
     signalPc := x; startupPc := startupPc s; done := done s;
     closed := closed s; closeCalled := closeCalled s;
     watcherClosed := watcherClosed s; trace := trace s |}.

Definition set_startupPc (x : StartupPc) (s : Sys) : Sys :=
  {| proc := proc s; mainPc := mainPc s; readerPc := readerPc s;
     signalPc := signalPc s; startupPc := x; done := done s;
     closed := closed s; closeCalled := closeCalled s;
     watcherClosed := watcherClosed s; trace := trace s |}.

Definition set_done (x : bool) (s : Sys) : Sys :=
  {| proc := proc s; mainPc := mainPc s; readerPc := readerPc s;
     signalPc := signalPc s; startupPc := startupPc s; done := x;
     closed := closed s; closeCalled := closeCalled s;
     watcherClosed := watcherClosed s; trace := trace s |}.

Definition set_closed (x : bool) (s : Sys) : Sys :=
  {| proc := proc s; mainPc := mainPc s; readerPc := readerPc s;
     signalPc := signalPc s; startupPc := startupPc s; done := done s;
     closed := x; closeCalled := closeCalled s;
     watcherClosed := watcherClosed s; trace := trace s |}.

Definition set_closeCalled (x : bool) (s : Sys) : Sys :=
  {| proc := proc s; mainPc := mainPc s; readerPc := readerPc s;
     signalPc := signalPc s; startupPc := startupPc s; done := done s;
     closed := closed s; closeCalled := x;
     watcherClosed := watcherClosed s; trace := trace s |}.

Definition set_watcherClosed (x : bool) (s : Sys) : Sys :=
  {| proc := proc s; mainPc := mainPc s; readerPc := readerPc s;
     signalPc := signalPc s; startupPc := startupPc s; done := done s;
     closed := closed s; closeCalled := closeCalled s;
     watcherClosed := x; trace := trace s |}.

Definition emit (g : Goroutine) (acts : list Action) (s : Sys) : Sys :=
  {| proc := proc s; mainPc := mainPc s; readerPc := readerPc s;
     signalPc := signalPc s; startupPc := startupPc s; done := done s;
     closed := closed s; closeCalled := closeCalled s;
     watcherClosed := watcherClosed s;
     trace := trace s ++ map (pair g) acts |}.

(** One scheduling step. The watcher, the operating system and the spawned
    commands answer through the label. *)
Inductive Label :=
| ReadEvent (event : Event) (r : RunResult)
    (* the reader takes [event] from w.Event; [r] is what c.Run() gives *)
| ReadError (err : error)           (* the reader takes [err] from w.Error *)
| ReadClosed                        (* the reader's select observes w.Closed *)
| SigRecv (sig : Signal)            (* the handler's <-c *)
| SigClose                          (* the handler's w.Close() *)
| SigDone                           (* the handler's <-done, print, close(closed) *)
| StartupRun (r : RunResult)        (* the start-up goroutine's body *)
| WatcherCloses                     (* the watcher closes w.Closed *)
| StartReturns (err : option error) (* w.Start returns in main *)
| MainReturns.                      (* main's <-closed, then return *)

Definition isReaderLabel (l : Label) : bool :=
  match l with
  | ReadEvent _ _ | ReadError _ | ReadClosed => true
  | _ => false
  end.

Definition isReadLabel (l : Label) : bool :=
  match l with
  | ReadEvent _ _ | ReadError _ => true
  | _ => false
  end.

Definition readerPc_eqb (a b : ReaderPc) : bool :=
  match a, b with
  | RNotSpawned, RNotSpawned | RSelect, RSelect | RReturned, RReturned => true
  | _, _ => false
  end.

Definition signalPc_eqb (a b : SignalPc) : bool :=
  match a, b with
  | SNotSpawned, SNotSpawned | SWaitSignal, SWaitSignal | SCallClose, SCallClose
  | SWaitDone, SWaitDone | SReturned, SReturned => true
  | _, _ => false
  end.

Definition startupPc_eqb (a b : StartupPc) : bool :=
  match a, b with
  | UNotSpawned, UNotSpawned | UReady, UReady | UReturned, UReturned => true
  | _, _ => false
  end.

Definition mainPc_eqb (a b : MainPc) : bool :=
  match a, b with
  | MSetup, MSetup | MInStart, MInStart | MWaitClosed, MWaitClosed
  | MReturned, MReturned => true
  | _, _ => false
  end.

Definition goroutine_eqb (a b : Goroutine) : bool :=
  match a, b with
  | GMain, GMain | GReader, GReader | GSignal, GSignal | GStartup, GStartup => true
  | _, _ => false
  end.

Section Goroutines.

Variable impl : Impl.
Variable flags : Flags.
Variable cap : Captured.

(** Lines 135-141 and 203-209: [c.Run()] and what follows an error. [ctl]
    is where control goes when the error is only logged. *)
Definition runAndCheck (stdin : Stdin) (r : RunResult) (ctl : Ctl) : list Action * Ctl :=
  let ran := ExecRun (cmdName cap) (cmdArgs cap) stdin r in
  match run_err r with
  | Some err =>
      if (match run_state r with
          | None => true
          | Some ps => negb (Success ps)
          end) && keepalive flags
      then ([ran; LogPrintln err], ctl)
      else ([ran; LogFatalln err], Exit (Fatal err))
  | None => ([ran], ctl)
  end.

(** Lines 119-152: one iteration of the reader's [for { select {...} }]. *)
Definition readerBody (c : SelectCase) (r : RunResult) : list Action * Ctl :=
  match c with
  | CaseEvent event =>
      if negb (isEmpty (cmd flags)) then
        let stdin := if stdinPipe flags
                     then StringReader (Event_String impl event)
                     else OsStdin in
        let (acts, ctl) := runAndCheck stdin r Continue in
        (PrintEvent event :: acts, ctl)
      else ([PrintEvent event], Continue)
  | CaseError err =>
      if isErrWatchedFileDeleted err then ([PrintError err], Continue)
      else ([LogFatalln err], Exit (Fatal err))
  | CaseClosed => ([], Return)
  end.

(** Lines 197-211: the goroutine started just before [w.Start]. *)
Definition startupBody (r : RunResult) : list Action * Ctl :=
  if negb (isEmpty (cmd flags)) && startcmd flags then
    runAndCheck OsStdin r Return
  else ([], Return).

(** The reader after one iteration; its deferred close(done) runs on
    return. *)
Definition afterReader (ctl : Ctl) (s : Sys) : Sys :=
  match ctl with
  | Continue => s
  | Return => set_done true (set_readerPc RReturned s)
  | Exit h => set_proc (Died h) s
  end.

Definition afterStartup (ctl : Ctl) (s : Sys) : Sys :=
  match ctl with
  | Continue | Return => set_startupPc UReturned s
  | Exit h => set_proc (Died h) s
  end.

Definition reads (c : SelectCase) (r : RunResult) (s : Sys) : Sys :=
  let (acts, ctl) := readerBody c r in
  afterReader ctl (emit GReader acts s).

Definition noRun : RunResult := {| run_err := None; run_state := None |}.

(** Modelled from the spec: the watcher's side of shutdown (section 4.5),
    whose code is missing from the sources at hand. Events and errors are
    handed over only while the Closed signal is not yet closed. *)
Definition watcherDelivers (s : Sys) : bool := negb (watcherClosed s).

(** Modelled from the spec: the Closed signal closes once, after Close()
    was called (section 4.5). *)
Definition watcherMayClose (s : Sys) : bool :=
  closeCalled s && negb (watcherClosed s).

(** Modelled from the spec: Start blocks the caller until Close()
    completes (section 6); an error return is possible at any time. *)
Definition startMayReturnNil (s : Sys) : bool := watcherClosed s.

(** One step of one goroutine, enabled or not ([None]) in state [s]. A
    blocking operation is enabled when it can complete: a receive from
    [done], [closed] or w.Closed once the channel is closed, a receive from
    w.Event or w.Error when the watcher hands a value over. Nothing moves
    once the process has ended. A step is one pass through a goroutine's
    body taken in one piece: what another goroutine does while a command
    runs, or between the write and the exit of log.Fatalln, is not told
    apart from what it does before or after. *)
Definition step (l : Label) (s : Sys) : option Sys :=
  match proc s with
  | Running =>
      match l with
      | ReadEvent event r =>
          if readerPc_eqb (readerPc s) RSelect && watcherDelivers s
          then Some (reads (CaseEvent event) r s)
          else None
      | ReadError err =>
          if readerPc_eqb (readerPc s) RSelect && watcherDelivers s
          then Some (reads (CaseError err) noRun s)
          else None
      | ReadClosed =>
          if readerPc_eqb (readerPc s) RSelect && watcherClosed s
          then Some (reads CaseClosed noRun s)
          else None
      | SigRecv _ =>
          if signalPc_eqb (signalPc s) SWaitSignal
          then Some (set_signalPc SCallClose s)
          else None
      | SigClose =>
          if signalPc_eqb (signalPc s) SCallClose
          then Some (set_closeCalled true
                       (set_signalPc SWaitDone (emit GSignal [CallClose] s)))
          else None
      | SigDone =>
          if signalPc_eqb (signalPc s) SWaitDone && done s
          then Some (set_closed true
                       (set_signalPc SReturned (emit GSignal [PrintWatcherClosed] s)))
          else None
      | StartupRun r =>
          if startupPc_eqb (startupPc s) UReady
          then let (acts, ctl) := startupBody r in
               Some (afterStartup ctl (emit GStartup acts s))
          else None
      | WatcherCloses =>
          if watcherMayClose s
          then Some (set_watcherClosed true s)
          else None
      | StartReturns None =>
          if mainPc_eqb (mainPc s) MInStart && startMayReturnNil s
          then Some (set_mainPc MWaitClosed s)
          else None
      | StartReturns (Some err) =>
          if mainPc_eqb (mainPc s) MInStart
          then Some (set_proc (Died (Fatal err)) (emit GMain [LogFatalln err] s))
          else None
      | MainReturns =>
          if mainPc_eqb (mainPc s) MWaitClosed && closed s
          then Some (set_proc Exited (set_mainPc MReturned s))
          else None
      end
  | _ => None
  end.

Fixpoint exec (ls : list Label) (s : Sys) : option Sys :=
  match ls with
  | [] => Some s
  | l :: ls' =>
      match step l s with
      | Some s' => exec ls' s'
      | None => None
      end
  end.

End Goroutines.

(** ** The whole program *)

Definition spawned (g : Goroutine) (acts : list Action) : bool :=
  existsb (fun a => match a with GoStmt g' => goroutine_eqb g g' | _ => false end) acts.

Section Program.

Variable impl : Impl.
Variable env : Env.
Variable flags : Flags.
Variable args : list gostring.

(** The captured variables; before they are assigned they hold zero
    values. *)
Definition captured : Captured :=
  match fst (runMain impl env flags args) with
  | inr cap => cap
  | inl _ => {| cmdName := []; cmdArgs := [] |}
  end.

(** The process when the main goroutine has either called [w.Start] or
    ended the process during set-up. The reader is spawned earlier, but
    until Start is called the watcher sends nothing, so it still stands at
    its select. The handler and the start-up goroutine take their steps
    from here on: a schedule in which one of them moves between its go
    statement and the call of Start is not among those of [run]. *)
Definition boot : Sys :=
  let (res, st) := runMain impl env flags args in
  let acts := done_actions st in
  match res with
  | inr _ =>
      {| proc := Running; mainPc := MInStart; readerPc := RSelect;
         signalPc := SWaitSignal; startupPc := UReady;
         done := false; closed := false; closeCalled := false;
         watcherClosed := false; trace := map (pair GMain) acts |}
  | inl h =>
      {| proc := Died h; mainPc := MSetup;
         readerPc := if spawned GReader acts then RSelect else RNotSpawned;
         signalPc := SNotSpawned; startupPc := UNotSpawned;
         done := false; closed := false; closeCalled := false;
         watcherClosed := false; trace := map (pair GMain) acts |}
  end.

(** The states a schedule [ls] leads to. *)
Definition run (ls : list Label) : option Sys :=
  exec impl flags captured ls boot.

End Program.

(** ** A small watcher and environment for the examples *)

Fixpoint gostring_eqb (a b : gostring) : bool :=
  match a, b with
  | [], [] => true
  | x :: a', y :: b' => (x =? y)%N && gostring_eqb a' b'
  | _, _ => false
  end.

(** Every path resolves except the one called [missing]. *)
Definition demoResolves (p : gostring) : bool :=
  negb (gostring_eqb p (lit "missing")).

Definition notFound : error := ErrOther (lit "no such file or directory").

Definition demoAdd (p : gostring) (w : list gostring) : list gostring * option error :=
  if demoResolves p then (w ++ [p], None) else (w, Some notFound).

Definition demoImpl : Impl :=
  {| state := list gostring;
     New := [];
     IgnoreHiddenFiles := fun _ w => w;
     Ignore := fun p w => if demoResolves p then (w, None) else (w, Some notFound);
     Add := demoAdd;
     AddRecursive := demoAdd;
     WatchedFiles := fun w => map (fun p => (p, p)) w;
     Event_String := fun e => ev_path e |}.

Definition demoEnv : Env :=
  {| Getwd := Ok (lit "/work");
     ParseDuration := fun s =>
       if gostring_eqb s (lit "100ms") then Ok 100000000%Z
       else Err (ErrOther (lit "invalid duration")) |}.


Definition demoEvent : Event :=
  {| ev_op := Write; ev_path := lit "/work/a.txt"; ev_oldPath := []; ev_file := None |}.

(** The three ways a command can end that the source tells apart. *)
Definition ranOk : RunResult :=
  {| run_err := None; run_state := Some {| ExitCode := 0 |} |}.
Definition exitStatus1 : error := ErrOther (lit "exit status 1").
Definition ranExit1 : RunResult :=
  {| run_err := Some exitStatus1; run_state := Some {| ExitCode := 1 |} |}.
Definition notStartedErr : error := ErrOther (lit "executable file not found in $PATH").
Definition notStarted : RunResult :=
  {| run_err := Some notStartedErr; run_state := None |}.

Definition withCmd (c : string) (f : Flags) : Flags :=
  {| interval := interval f; recursive := recursive f; dotfiles := dotfiles f;
     cmd := lit c; startcmd := startcmd f; listFiles := listFiles f;
     stdinPipe := stdinPipe f; keepalive := keepalive f; ignore := ignore f |}.

Definition withStartcmd (b : bool) (f : Flags) : Flags :=
  {| interval := interval f; recursive := recursive f; dotfiles := dotfiles f;
     cmd := cmd f; startcmd := b; listFiles := listFiles f;
     stdinPipe := stdinPipe f; keepalive := keepalive f; ignore := ignore f |}.

Definition withKeepalive (b : bool) (f : Flags) : Flags :=
  {| interval := interval f; recursive := recursive f; dotfiles := dotfiles f;
     cmd := cmd f; startcmd := startcmd f; listFiles := listFiles f;
     stdinPipe := stdinPipe f; keepalive := b; ignore := ignore f |}.

Definition withPipe (b : bool) (f : Flags) : Flags :=
  {| interval := interval f; recursive := recursive f; dotfiles := dotfiles f;
     cmd := cmd f; startcmd := startcmd f; listFiles := listFiles f;
     stdinPipe := b; keepalive := keepalive f; ignore := ignore f |}.

Definition withIgnore (i : string) (f : Flags) : Flags :=
  {| interval := interval f; recursive := recursive f; dotfiles := dotfiles f;
     cmd := cmd f; startcmd := startcmd f; listFiles := listFiles f;
     stdinPipe := stdinPipe f; keepalive := keepalive f; ignore := lit i |}.

Definition withRecursive (b : bool) (f : Flags) : Flags :=
  {| interval := interval f; recursive := b; dotfiles := dotfiles f;
     cmd := cmd f; startcmd := startcmd f; listFiles := listFiles f;
     stdinPipe := stdinPipe f; keepalive := keepalive f; ignore := ignore f |}.

(** ** What the set-up leaves in the trace *)

(** The entries of the -ignore value that reach [w.Ignore]. *)
Definition ignoreEntries (paths : list gostring) : list gostring :=
  filter (fun p => negb (isEmpty p)) (map TrimSpace paths).

(** A loop of fallible calls over [paths] that stops, fatally, at the first
    error: either every call returned nil, or the calls before [p] did and
    the call on [p] returned [e], which was logged fatally. *)
Inductive CallSeg (mk : gostring -> option error -> Action) (paths : list gostring)
  : option error -> list Action -> Prop :=
| CallsAll : CallSeg mk paths None (map (fun p => mk p None) paths)
| CallsFail pre p post e :
    paths = pre ++ p :: post ->
    CallSeg mk paths (Some e)
      (map (fun p => mk p None) pre ++ [mk p (Some e); LogFatalln e]).

Definition registerAction (flags : Flags) : gostring -> option error -> Action :=
  if recursive flags then CallAddRecursive else CallAdd.

(** The roots to watch: the arguments, or the working directory. *)
Inductive Files (env : Env) (args : list gostring) : list gostring -> Prop :=
| FilesCwd d : args = [] -> Getwd env = Ok d -> Files env args [d]
| FilesArgs : args <> [] -> Files env args args.

Inductive ParsedCmd (flags : Flags) : Captured -> Prop :=
| NoCmd : cmd flags = [] -> ParsedCmd flags {| cmdName := []; cmdArgs := [] |}
| SomeCmd name rest :
    cmd flags <> [] ->
    FieldsFunc (cmd flags) IsSpace = name :: rest ->
    ParsedCmd flags {| cmdName := name; cmdArgs := rest |}.

Definition isPrint (a : Action) : bool :=
  match a with
  | PrintFile _ _ | PrintBlank | PrintWatching _ => true
  | _ => false
  end.

Definition prelude (flags : Flags) : list Action :=
  [CallNew; CallIgnoreHiddenFiles (negb (dotfiles flags))].

Definition spawns (d : Z) : list Action :=
  [SignalNotify [Kill; Interrupt]; GoStmt GSignal; GoStmt GStartup; CallStart d].

(** Every way [main] gets from flag.Parse to [w.Start] or to its end, with
    the trace it leaves. *)
Inductive SetupTrace (env : Env) (flags : Flags) (args : list gostring)
  : Halt + Captured -> list Action -> Prop :=
| NoWorkingDir e :
    args = [] -> Getwd env = Err e ->
    SetupTrace env flags args (inl (Fatal e)) [LogFatalln e]
| CmdPanics files :
    Files env args files ->
    cmd flags <> [] -> FieldsFunc (cmd flags) IsSpace = [] ->
    SetupTrace env flags args (inl Panic) []
| IgnoreFailed files cap e igs :
    Files env args files -> ParsedCmd flags cap ->
    CallSeg CallIgnore (ignoreEntries (Split (ignore flags) comma)) (Some e) igs ->
    SetupTrace env flags args (inl (Fatal e)) (prelude flags ++ igs)
| AddFailed files cap e igs adds :
    Files env args files -> ParsedCmd flags cap ->
    CallSeg CallIgnore (ignoreEntries (Split (ignore flags) comma)) None igs ->
    CallSeg (registerAction flags) files (Some e) adds ->
    SetupTrace env flags args (inl (Fatal e))
      (prelude flags ++ igs ++ [GoStmt GReader] ++ adds)
| BadInterval files cap e igs adds rep :
    Files env args files -> ParsedCmd flags cap ->
    CallSeg CallIgnore (ignoreEntries (Split (ignore flags) comma)) None igs ->
    CallSeg (registerAction flags) files None adds ->
    forallb isPrint rep = true ->
    ParseDuration env (interval flags) = Err e ->
    SetupTrace env flags args (inl (Fatal e))
      (prelude flags ++ igs ++ [GoStmt GReader] ++ adds ++ rep ++ [LogFatalln e])
| Started files cap d igs adds rep :
    Files env args files -> ParsedCmd flags cap ->
    CallSeg CallIgnore (ignoreEntries (Split (ignore flags) comma)) None igs ->
    CallSeg (registerAction flags) files None adds ->
    forallb isPrint rep = true ->
    ParseDuration env (interval flags) = Ok d ->
    SetupTrace env flags args (inr cap)
      (prelude flags ++ igs ++ [GoStmt GReader] ++ adds ++ rep ++ spawns d).

(** A registration call: whether it is the recursive one, the root it
    names, and what it returned. *)
Definition registered (a : Action) : option (bool * gostring * option error) :=
  match a with
  | CallAdd p r => Some (false, p, r)
  | CallAddRecursive p r => Some (true, p, r)
  | _ => None
  end.

Definition toRes (oe : option error) : Halt + unit :=
  match oe with
  | None => inr tt
  | Some e => inl (Fatal e)
  end.

(** ** Predicates on states and traces *)

(** What holds of the channels and program counters in every state the
    program reaches: [done] is closed exactly by the reader's return, the
    reader returns only on a closed Closed signal, which needs Close(),
    which only the handler calls; [closed] is closed by the handler after
    [done]; main gets past [<-closed] only then. *)
Definition Inv (s : Sys) : Prop :=
  (done s = true <-> readerPc s = RReturned) /\
  (readerPc s = RReturned -> watcherClosed s = true) /\
  (watcherClosed s = true -> closeCalled s = true) /\
  (closeCalled s = true <-> (signalPc s = SWaitDone \/ signalPc s = SReturned)) /\
  (closed s = true <-> signalPc s = SReturned) /\
  (signalPc s = SReturned -> done s = true) /\
  (mainPc s = MWaitClosed \/ mainPc s = MReturned -> watcherClosed s = true) /\
  (proc s = Exited <-> mainPc s = MReturned) /\
  (mainPc s = MReturned -> closed s = true).

(** The runs of the command made by the start-up goroutine. *)
Definition isStartupRun (ga : Goroutine * Action) : bool :=
  goroutine_eqb (fst ga) GStartup && isExecRun (snd ga).

Definition startupRuns (tr : list (Goroutine * Action)) : list (Goroutine * Action) :=
  filter isStartupRun tr.

(** "The start-up run comes before the event-driven runs": every run of
    the command by the reader has a run by the start-up goroutine before
    it. *)
Definition StartupRunsFirst (tr : list (Goroutine * Action)) : Prop :=
  forall pre a post,
    tr = pre ++ (GReader, a) :: post -> isExecRun a = true ->
    exists b, isExecRun b = true /\ In (GStartup, b) pre.

(** The standard input the reader gives the command for [event]. *)
Definition eventStdin (impl : Impl) (flags : Flags) (event : Event) : Stdin :=
  if stdinPipe flags then StringReader (Event_String impl event) else OsStdin.

(** The goroutine a step belongs to; the watcher closing its Closed
    signal happens inside [w.Start], on the main goroutine's side. *)
Definition actor (l : Label) : Goroutine :=
  match l with
  | ReadEvent _ _ | ReadError _ | ReadClosed => GReader
  | SigRecv _ | SigClose | SigDone => GSignal
  | StartupRun _ => GStartup
  | WatcherCloses | StartReturns _ | MainReturns => GMain
  end.

(** A schedule of a clean shutdown. *)
Definition cleanShutdown : list Label :=
  [SigRecv Interrupt; SigClose; WatcherCloses; ReadClosed; SigDone;
   StartReturns None; MainReturns].

(** A schedule in which the reader takes an error other than
    ErrWatchedFileDeleted after the handler has called Close() and before
    the watcher has closed its Closed signal. *)
Definition fatalAfterClose : list Label :=
  [SigRecv Interrupt; SigClose; ReadError notFound].

(** "The process finishes only after the reader has observed Closed and
    returned": once a signal was received, a process that has finished,
    in whatever way, has a reader that has returned. *)
Definition FinishesAfterReader (ls : list Label) (s : Sys) : Prop :=
  (exists sig, In (SigRecv sig) ls) ->
  proc s <> Running -> readerPc s = RReturned.

(** Both -cmd and -startcmd are set (line 198). *)
Definition startcmdSet (flags : Flags) : bool :=
  negb (isEmpty (cmd flags)) && startcmd flags.

(** The two shapes the start-up goroutine's runs can have: none yet (and
    the goroutine has not finished, unless the flags tell it not to run),
    or the one run of the command on os.Stdin. *)
Definition StartupShape (flags : Flags) (cap : Captured) (s : Sys) : Prop :=
  (startupRuns (trace s) = [] /\
   (startupPc s = UReturned -> startcmdSet flags = false))
  \/ (exists r,
        startupRuns (trace s)
          = [(GStartup, ExecRun (cmdName cap) (cmdArgs cap) OsStdin r)] /\
        startcmdSet flags = true /\
        (proc s = Running -> startupPc s = UReturned)).

(** A schedule in which an event is handled before the start-up goroutine
    gets to run. *)
Definition eventFirst : list Label :=
  [ReadEvent demoEvent ranOk; StartupRun ranOk].

Definition startcmdFlags : Flags :=
  withStartcmd true (withCmd "make all" defaultFlags).

(** ** Well-formed fields and paths *)

(** A field of strings.FieldsFunc for [f]: not empty, and free of the
    runes [f] splits at. *)
Definition isField (f : rune -> bool) (fld : gostring) : bool :=
  negb (isEmpty fld) && negb (existsb f fld).

(** strings.Join of pieces with a one-rune separator. *)
Fixpoint Join (pieces : list gostring) (sep : rune) : gostring :=
  match pieces with
  | [] => []
  | [p] => p
  | p :: rest => p ++ sep :: Join rest sep
  end.

(** A path as [main] hands it to [w.Ignore]: not empty, no comma in it,
    no white space at either end. *)
Definition trimmedEntry (p : gostring) : Prop :=
  p <> [] /\ ~ In comma p /\
  IsSpace (hd 0%N p) = false /\ IsSpace (last p 0%N) = false.

(** ** The stages of the set-up *)

(** The stage of [main] an action belongs to, in source order: create the
    watcher (0), hidden files (1), Ignore (2), start the reader (3),
    register roots (4), report (5), signal.Notify (6), start the handler
    (7), start the start-up goroutine (8), Start (9); a fatal log (10) ends
    any stage. What only the goroutines do comes after (11). *)
Definition phase (a : Action) : nat :=
  match a with
  | CallNew => 0
  | CallIgnoreHiddenFiles _ => 1
  | CallIgnore _ _ => 2
  | GoStmt GReader => 3
  | CallAdd _ _ | CallAddRecursive _ _ => 4
  | PrintFile _ _ | PrintBlank | PrintWatching _ => 5
  | SignalNotify _ => 6
  | GoStmt GSignal => 7
  | GoStmt GStartup => 8
  | CallStart _ => 9
  | LogFatalln _ => 10
  | GoStmt GMain | CallClose | PrintEvent _ | PrintError _
  | PrintWatcherClosed | LogPrintln _ | ExecRun _ _ _ _ => 11
  end.

Fixpoint nondecreasing (l : list nat) : bool :=
  match l with
  | [] => true
  | x :: l' => forallb (Nat.leb x) l' && nondecreasing l'
  end.

(** A run of stages that never steps back and stays between two bounds. *)
Definition Within (lo hi : nat) (l : list nat) : Prop :=
  nondecreasing l = true /\ Forall (fun x => lo <= x /\ x <= hi) l.

(** ** What a step adds to the trace *)

(** Every step a goroutine can take, with the state of the process after
    it and the actions it adds to the trace. *)
Inductive StepActs (impl : Impl) (flags : Flags) (cap : Captured)
  : Label -> Proc -> list Action -> Prop :=
| ActsEventOnly event r :
    cmd flags = [] ->
    StepActs impl flags cap (ReadEvent event r) Running [PrintEvent event]
| ActsEventRun event r :
    cmd flags <> [] -> run_err r = None ->
    StepActs impl flags cap (ReadEvent event r) Running
      [PrintEvent event;
       ExecRun (cmdName cap) (cmdArgs cap) (eventStdin impl flags event) r]
| ActsEventLogged event r err :
    cmd flags <> [] -> run_err r = Some err ->
    StepActs impl flags cap (ReadEvent event r) Running
      [PrintEvent event;
       ExecRun (cmdName cap) (cmdArgs cap) (eventStdin impl flags event) r;
       LogPrintln err]
| ActsEventFatal event r err :
    cmd flags <> [] -> run_err r = Some err ->
    StepActs impl flags cap (ReadEvent event r) (Died (Fatal err))
      [PrintEvent event;
       ExecRun (cmdName cap) (cmdArgs cap) (eventStdin impl flags event) r;
       LogFatalln err]
| ActsErrorPrinted :
    StepActs impl flags cap (ReadError ErrWatchedFileDeleted) Running
      [PrintError ErrWatchedFileDeleted]
| ActsErrorFatal err :
    err <> ErrWatchedFileDeleted ->
    StepActs impl flags cap (ReadError err) (Died (Fatal err)) [LogFatalln err]
| ActsClosed : StepActs impl flags cap ReadClosed Running []
| ActsSigRecv sig : StepActs impl flags cap (SigRecv sig) Running []
| ActsSigClose : StepActs impl flags cap SigClose Running [CallClose]
| ActsSigDone : StepActs impl flags cap SigDone Running [PrintWatcherClosed]
| ActsStartupNone r :
    cmd flags = [] \/ startcmd flags = false ->
    StepActs impl flags cap (StartupRun r) Running []
| ActsStartupRun r :
    cmd flags <> [] -> startcmd flags = true -> run_err r = None ->
    StepActs impl flags cap (StartupRun r) Running
      [ExecRun (cmdName cap) (cmdArgs cap) OsStdin r]
| ActsStartupLogged r err :
    cmd flags <> [] -> startcmd flags = true -> run_err r = Some err ->
    StepActs impl flags cap (StartupRun r) Running
      [ExecRun (cmdName cap) (cmdArgs cap) OsStdin r; LogPrintln err]
| ActsStartupFatal r err :
    cmd flags <> [] -> startcmd flags = true -> run_err r = Some err ->
    StepActs impl flags cap (StartupRun r) (Died (Fatal err))
      [ExecRun (cmdName cap) (cmdArgs cap) OsStdin r; LogFatalln err]
| ActsWatcherCloses : StepActs impl flags cap WatcherCloses Running []
| ActsStartNil : StepActs impl flags cap (StartReturns None) Running []
| ActsStartFatal err :
    StepActs impl flags cap (StartReturns (Some err)) (Died (Fatal err))
      [LogFatalln err]
| ActsMainReturns : StepActs impl flags cap MainReturns Exited [].

(** What each goroutine does once the set-up is over. *)
Definition allowed (g : Goroutine) (a : Action) : bool :=
  match g, a with
  | GReader, PrintEvent _ | GReader, PrintError _ | GReader, ExecRun _ _ _ _
  | GReader, LogPrintln _ | GReader, LogFatalln _ => true
  | GStartup, ExecRun _ _ OsStdin _ | GStartup, LogPrintln _
  | GStartup, LogFatalln _ => true
  | GSignal, CallClose | GSignal, PrintWatcherClosed => true
  | GMain, LogFatalln _ => true
  | _, _ => false
  end.

Definition actionsOf (g : Goroutine) (tr : list (Goroutine * Action)) : list Action :=
  map snd (filter (fun ga => goroutine_eqb (fst ga) g) tr).

(** What the signal handler has done when it stands at [pc]. *)
Definition handlerDid (pc : SignalPc) : list Action :=
  match pc with
  | SNotSpawned | SWaitSignal | SCallClose => []
  | SWaitDone => [CallClose]
  | SReturned => [CallClose; PrintWatcherClosed]
  end.



Definition allowedPair (ga : Goroutine * Action) : bool :=
  allowed (fst ga) (snd ga).

(** ** The report before Start *)

(** Lines 168-176 as a list: with -list one line per watched file and a
    blank line, then the count. *)
Definition reportActs (impl : Impl) (flags : Flags) (w : state impl) : list Action :=
  (if listFiles flags
   then map (fun pf => PrintFile (fst pf) (snd pf)) (WatchedFiles impl w) ++ [PrintBlank]
   else [])
  ++ [PrintWatching (List.length (WatchedFiles impl w))].

(** ** The example programs *)

Module Example.

(** The loop of the goroutine both example programs start first: events
    are printed, every error is fatal, a closed Closed signal ends it. *)
Definition readerBody (c : SelectCase) : list Action * Ctl :=
  match c with
  | CaseEvent event => ([PrintEvent event], Continue)
  | CaseError err => ([LogFatalln err], Exit (Fatal err))
  | CaseClosed => ([], Return)
  end.

End Example.

Definition space : rune := 32%N.

(** * Properties *)

(** ** Go strings *)

Example FieldsFunc_make_all :
  FieldsFunc (lit "  make   all ") IsSpace = [lit "make"; lit "all"].
Proof. reflexivity. Qed.

Example FieldsFunc_blank : FieldsFunc (lit "  ") IsSpace = [].
Proof. reflexivity. Qed.

Example Split_ignore :
  Split (lit "a, b,,") comma = [lit "a"; lit " b"; lit ""; lit ""].
Proof. reflexivity. Qed.

Example Split_empty : Split [] comma = [[]].
Proof. reflexivity. Qed.

Example TrimSpace_b : TrimSpace (lit "  b c ") = lit "b c".
Proof. reflexivity. Qed.

Lemma fieldsLoop_nil f s cur spans :
  fieldsLoop f s cur spans = [] <->
  cur = None /\ spans = [] /\ forallb f s = true.
Proof.
  revert cur spans.
  induction s as [|r s IH]; intros cur spans; simpl.
  - destruct cur as [fld|].
    + split.
      * intros H. apply app_eq_nil in H. destruct H as [_ H]. discriminate.
      * intros [H _]. discriminate.
    + split; [intros ->; auto | intros [_ [-> _]]; reflexivity].
  - destruct (f r) eqn:Hf; destruct cur as [fld|]; rewrite IH; simpl.
    + split.
      * intros [_ [H _]]. apply app_eq_nil in H. destruct H as [_ H]. discriminate.
      * intros [H _]. discriminate.
    + tauto.
    + split; intros [H _]; discriminate.
    + split; [intros [H _] | intros [_ [_ H]]]; discriminate.
Qed.

Lemma FieldsFunc_nil s f : FieldsFunc s f = [] <-> forallb f s = true.
Proof.
  unfold FieldsFunc. rewrite fieldsLoop_nil. tauto.
Qed.

Lemma forallb_false_witness (f : rune -> bool) s :
  forallb f s = false <-> exists r, In r s /\ f r = false.
Proof.
  induction s as [|a s IH]; simpl.
  - split; [discriminate | intros [r [[] _]]].
  - destruct (f a) eqn:Hf; simpl.
    + rewrite IH. split.
      * intros [r [Hin Hr]]. exists r. auto.
      * intros [r [[->|Hin] Hr]]; [congruence | exists r; auto].
    + split; [intros _; exists a; auto | reflexivity].
Qed.

(** ** The set-up of the main goroutine *)

Lemma CallSeg_cons mk p paths oe new :
  CallSeg mk paths oe new -> CallSeg mk (p :: paths) oe (mk p None :: new).
Proof.
  intros H. destruct H as [|pre q post e Hsplit].
  - apply (CallsAll mk (p :: paths)).
  - subst paths.
    apply (@CallsFail mk (p :: pre ++ q :: post) (p :: pre) q post e).
    reflexivity.
Qed.

Lemma CallSeg_first mk p paths e :
  CallSeg mk (p :: paths) (Some e) [mk p (Some e); LogFatalln e].
Proof.
  apply (@CallsFail mk (p :: paths) [] p paths e). reflexivity.
Qed.

Section SetupFacts.

Variable impl : Impl.
Variable env : Env.
Variable flags : Flags.
Variable args : list gostring.

Lemma ignoreLoop_seg paths (st : MainSt impl) :
  exists w' oe new,
    ignoreLoop paths st
      = (toRes oe, {| watcher := w'; done_actions := done_actions st ++ new |})
    /\ CallSeg CallIgnore (ignoreEntries paths) oe new.
Proof.
  revert st. induction paths as [|path rest IH]; intros st.
  - exists (watcher st), None, []. simpl. split.
    + unfold ret. rewrite app_nil_r. destruct st; reflexivity.
    + apply (CallsAll CallIgnore []).
  - simpl. unfold ignoreEntries. simpl.
    destruct (isEmpty (TrimSpace path)) eqn:Hemp; simpl.
    + apply IH.
    + unfold bind, call, bind, getWatcher; simpl.
      destruct (Ignore impl (TrimSpace path) (watcher st)) as [w1 r] eqn:Hcall.
      simpl. destruct r as [e|].
      * exists w1, (Some e), [CallIgnore (TrimSpace path) (Some e); LogFatalln e].
        split.
        -- unfold fatalln. simpl. rewrite <- app_assoc. reflexivity.
        -- apply CallSeg_first.
      * destruct (IH {| watcher := w1;
                        done_actions := done_actions st ++ [CallIgnore (TrimSpace path) None] |})
          as (w' & oe & new & Hrun & Hseg).
        exists w', oe, (CallIgnore (TrimSpace path) None :: new). split.
        -- rewrite Hrun. simpl. rewrite <- app_assoc. reflexivity.
        -- apply CallSeg_cons. exact Hseg.
Qed.

Lemma addLoop_seg files (st : MainSt impl) :
  exists w' oe new,
    addLoop flags files st
      = (toRes oe, {| watcher := w'; done_actions := done_actions st ++ new |})
    /\ CallSeg (registerAction flags) files oe new.
Proof.
  revert st. induction files as [|file rest IH]; intros st.
  - exists (watcher st), None, []. simpl. split.
    + unfold ret. rewrite app_nil_r. destruct st; reflexivity.
    + apply (CallsAll (registerAction flags) []).
  - simpl. unfold bind at 1.
    assert (Hcall : exists w1 r,
      (if recursive flags
       then call (AddRecursive impl) CallAddRecursive file
       else call (Add impl) CallAdd file) st
      = (inr r, {| watcher := w1;
                   done_actions := done_actions st ++ [registerAction flags file r] |})).
    { unfold registerAction. destruct (recursive flags);
        unfold call, bind, getWatcher; simpl.
      - destruct (AddRecursive impl file (watcher st)) as [w1 r]. simpl.
        exists w1, r. reflexivity.
      - destruct (Add impl file (watcher st)) as [w1 r]. simpl.
        exists w1, r. reflexivity. }
    destruct Hcall as (w1 & r & ->). destruct r as [e|].
    + exists w1, (Some e), [registerAction flags file (Some e); LogFatalln e].
      split.
      * unfold fatalln. simpl. rewrite <- app_assoc. reflexivity.
      * apply CallSeg_first.
    + destruct (IH {| watcher := w1;
                      done_actions := done_actions st ++ [registerAction flags file None] |})
        as (w' & oe & new & Hrun & Hseg).
      exists w', oe, (registerAction flags file None :: new). split.
      * rewrite Hrun. simpl. rewrite <- app_assoc. reflexivity.
      * apply CallSeg_cons. exact Hseg.
Qed.

Lemma printFiles_seg l (st : MainSt impl) :
  exists new,
    printFiles l st
      = (inr tt, {| watcher := watcher st; done_actions := done_actions st ++ new |})
    /\ forallb isPrint new = true.
Proof.
  revert st. induction l as [|[path name] l IH]; intros st.
  - exists []. simpl. unfold ret. rewrite app_nil_r. destruct st; auto.
  - simpl. unfold bind, act.
    destruct (IH {| watcher := watcher st;
                    done_actions := done_actions st ++ [PrintFile path name] |})
      as (new & Hrun & Hall).
    exists (PrintFile path name :: new). rewrite Hrun. simpl.
    rewrite <- app_assoc. auto.
Qed.

Lemma report_seg (st : MainSt impl) :
  exists new,
    report flags st
      = (inr tt, {| watcher := watcher st; done_actions := done_actions st ++ new |})
    /\ forallb isPrint new = true.
Proof.
  unfold report. destruct (listFiles flags).
  - unfold bind at 1. unfold bind at 1. unfold getWatcher at 1.
    unfold bind at 1.
    destruct (printFiles_seg (WatchedFiles impl (watcher st)) st)
      as (new & Hrun & Hall).
    rewrite Hrun. unfold act, bind, getWatcher. simpl.
    exists (new ++ [PrintBlank;
                    PrintWatching (List.length (WatchedFiles impl (watcher st)))]).
    split.
    + rewrite <- !app_assoc. reflexivity.
    + rewrite forallb_app, Hall. reflexivity.
  - unfold bind, ret, getWatcher, act. simpl.
    exists [PrintWatching (List.length (WatchedFiles impl (watcher st)))].
    auto.
Qed.

Lemma resolveFiles_cases (st : MainSt impl) :
  (exists e, args = [] /\ Getwd env = Err e /\
     resolveFiles env args st
       = (inl (Fatal e),
          {| watcher := watcher st; done_actions := done_actions st ++ [LogFatalln e] |}))
  \/ (exists files, Files env args files /\ resolveFiles env args st = (inr files, st)).
Proof.
  unfold resolveFiles. destruct args as [|a rest] eqn:Hargs.
  - destruct (Getwd env) as [d|e] eqn:Hwd.
    + right. exists [d]. split; [apply FilesCwd with (d := d); auto | reflexivity].
    + left. exists e. auto.
  - right. exists (a :: rest). split; [apply FilesArgs; discriminate | reflexivity].
Qed.

Lemma parseCmd_cases (st : MainSt impl) :
  (cmd flags <> [] /\ FieldsFunc (cmd flags) IsSpace = [] /\
     parseCmd flags st = (inl Panic, st))
  \/ (exists cap, ParsedCmd flags cap /\ parseCmd flags st = (inr cap, st)).
Proof.
  unfold parseCmd. destruct (cmd flags) as [|c rest] eqn:Hcmd; simpl.
  - right. eexists. split; [apply NoCmd; exact Hcmd | reflexivity].
  - rewrite <- Hcmd.
    destruct (FieldsFunc (cmd flags) IsSpace) as [|name more] eqn:Hsplit; simpl.
    + left. rewrite Hcmd. repeat split; congruence.
    + right. exists {| cmdName := name; cmdArgs := more |}. split.
      * apply SomeCmd; [rewrite Hcmd; discriminate | exact Hsplit].
      * destruct more; reflexivity.
Qed.

Lemma mainSetup_trace res st' :
  mainSetup env flags args {| watcher := New impl; done_actions := [] |} = (res, st') ->
  SetupTrace env flags args res (done_actions st').
Proof.
  set (st0 := {| watcher := New impl; done_actions := [] |}).
  unfold mainSetup. intros H.
  unfold bind at 1 in H.
  destruct (resolveFiles_cases st0) as [(e & Ha & Hwd & Hr)|(files & Hfiles & Hr)];
    rewrite Hr in H.
  { injection H as <- <-. simpl. apply NoWorkingDir; assumption. }
  unfold bind at 1 in H.
  destruct (parseCmd_cases st0) as [(Hne & Hsplit & Hp)|(cap & Hcap & Hp)];
    rewrite Hp in H.
  { injection H as <- <-. simpl. apply CmdPanics with (files := files); assumption. }
  unfold bind at 1, act at 1 in H.
  unfold bind at 1, getWatcher at 1 in H.
  unfold bind at 1, putWatcher at 1 in H.
  unfold bind at 1, act at 1 in H.
  unfold bind at 1 in H.
  match type of H with
  | context [ignoreLoop ?ps ?st] =>
      destruct (ignoreLoop_seg ps st) as (w1 & oe & igs & Hi & Higs)
  end.
  rewrite Hi in H. destruct oe as [e|]; simpl toRes in H; cbv iota in H.
  { injection H as <- <-. simpl.
    apply IgnoreFailed with (files := files) (cap := cap); assumption. }
  unfold bind at 1, act at 1 in H.
  unfold bind at 1 in H.
  match type of H with
  | context [addLoop flags files ?st] =>
      destruct (addLoop_seg files st) as (w2 & oe & adds & Hadd & Hadds)
  end.
  rewrite Hadd in H. destruct oe as [e|]; simpl toRes in H; cbv iota in H.
  { injection H as <- <-. simpl. rewrite <- !app_assoc.
    apply AddFailed with (files := files) (cap := cap) (igs := igs) (adds := adds);
      assumption. }
  unfold bind at 1 in H.
  match type of H with
  | context [report flags ?st] =>
      destruct (report_seg st) as (rep & Hrep & Hprints)
  end.
  rewrite Hrep in H.
  unfold bind at 1 in H.
  destruct (ParseDuration env (interval flags)) as [d|e] eqn:Hdur.
  - unfold bind, ret, act in H. simpl in H. injection H as <- <-. simpl.
    rewrite <- !app_assoc.
    apply Started with (files := files) (igs := igs) (adds := adds) (rep := rep) (d := d);
      assumption.
  - unfold fatalln in H. simpl in H. injection H as <- <-. simpl.
    rewrite <- !app_assoc.
    apply BadInterval with (files := files) (cap := cap) (igs := igs) (adds := adds)
                           (rep := rep); assumption.
Qed.

(** [main]'s set-up always ends, and in one of the six ways of
    [SetupTrace]. *)
Lemma runMain_trace :
  SetupTrace env flags args
    (fst (runMain impl env flags args))
    (done_actions (snd (runMain impl env flags args))).
Proof.
  unfold runMain.
  destruct (mainSetup env flags args {| watcher := New impl; done_actions := [] |})
    as [res st'] eqn:H.
  simpl. apply mainSetup_trace. exact H.
Qed.

End SetupFacts.

(** ** Reading the trace of the set-up *)

Lemma pick_app A B (f : A -> option B) l1 l2 :
  pick f (l1 ++ l2) = pick f l1 ++ pick f l2.
Proof.
  induction l1 as [|a l1 IH]; simpl; [reflexivity|].
  destruct (f a); simpl; rewrite IH; reflexivity.
Qed.

Lemma pick_none A B (f : A -> option B) l :
  Forall (fun a => f a = None) l -> pick f l = [].
Proof.
  induction 1 as [|a l Ha _ IH]; simpl; [reflexivity|].
  rewrite Ha. exact IH.
Qed.

Lemma pick_map_some A B C (f : A -> option B) (g : C -> A) (h : C -> B) l :
  (forall c, f (g c) = Some (h c)) -> pick f (map g l) = map h l.
Proof.
  intros Hfg. induction l as [|c l IH]; simpl; [reflexivity|].
  rewrite Hfg, IH. reflexivity.
Qed.

Lemma CallSeg_Forall mk paths oe new (P : Action -> Prop) :
  (forall p r, P (mk p r)) -> (forall e, P (LogFatalln e)) ->
  CallSeg mk paths oe new -> Forall P new.
Proof.
  intros Hmk Hlog H. destruct H as [|pre p post e _].
  - apply Forall_forall. intros a Ha. apply in_map_iff in Ha.
    destruct Ha as (q & <- & _). apply Hmk.
  - apply Forall_app. split.
    + apply Forall_forall. intros a Ha. apply in_map_iff in Ha.
      destruct Ha as (q & <- & _). apply Hmk.
    + repeat constructor; auto.
Qed.

Lemma CallSeg_In mk paths oe new a :
  CallSeg mk paths oe new -> In a new ->
  (exists p, a = mk p None)
  \/ (exists p e, oe = Some e /\ (a = mk p (Some e) \/ a = LogFatalln e)).
Proof.
  intros H Ha. destruct H as [|pre p post e _].
  - apply in_map_iff in Ha. destruct Ha as (q & <- & _). left. eauto.
  - apply in_app_or in Ha. destruct Ha as [Ha|Ha].
    + apply in_map_iff in Ha. destruct Ha as (q & <- & _). left. eauto.
    + right. exists p, e. simpl in Ha. intuition.
Qed.

Lemma prints_Forall (P : Action -> Prop) rep :
  (forall a, isPrint a = true -> P a) ->
  forallb isPrint rep = true -> Forall P rep.
Proof.
  intros HP H. apply Forall_forall. intros a Ha.
  apply HP. rewrite forallb_forall in H. apply H. exact Ha.
Qed.



Lemma registerAction_cases flags :
  (recursive flags = true /\ registerAction flags = CallAddRecursive)
  \/ (recursive flags = false /\ registerAction flags = CallAdd).
Proof. unfold registerAction. destruct (recursive flags); auto. Qed.


Lemma ignoreCall_registerAction flags p r :
  ignoreCall (registerAction flags p r) = None.
Proof.
  destruct (registerAction_cases flags) as [[_ ->]|[_ ->]]; reflexivity.
Qed.



(** The Ignore calls of a segment, with what each returned. *)
Lemma pick_ignore_seg entries oe igs :
  CallSeg CallIgnore entries oe igs ->
  match oe with
  | None => pick ignoreCall igs = map (fun p => (p, None)) entries
  | Some e =>
      exists pre p post, entries = pre ++ p :: post /\
        pick ignoreCall igs = map (fun p => (p, None)) pre ++ [(p, Some e)]
  end.
Proof.
  intros H. destruct H as [|pre p post e Hsplit].
  - apply pick_map_some. reflexivity.
  - exists pre, p, post. split; [exact Hsplit|].
    rewrite pick_app. simpl. f_equal. apply pick_map_some. reflexivity.
Qed.



Lemma register_seg_no_ignore flags files oe adds :
  CallSeg (registerAction flags) files oe adds -> pick ignoreCall adds = [].
Proof.
  intros H. apply pick_none.
  refine (CallSeg_Forall (fun a => ignoreCall a = None) _ _ H).
  - intros. apply ignoreCall_registerAction.
  - reflexivity.
Qed.

Lemma prints_no_ignore rep :
  forallb isPrint rep = true -> pick ignoreCall rep = [].
Proof.
  intros H. apply pick_none.
  apply (prints_Forall (fun a => ignoreCall a = None)); [|exact H].
  intros a; destruct a; simpl; try discriminate; reflexivity.
Qed.


Lemma In_prints a rep :
  forallb isPrint rep = true -> In a rep -> isPrint a = true.
Proof. intros H Ha. rewrite forallb_forall in H. auto. Qed.

Lemma In_pick A B (f : A -> option B) a b l :
  In a l -> f a = Some b -> In b (pick f l).
Proof.
  intros Ha Hf. induction l as [|x l IH]; simpl in *; [contradiction|].
  destruct Ha as [->|Ha].
  - rewrite Hf. left. reflexivity.
  - destruct (f x); [right|]; auto.
Qed.

Lemma map_fst_pair A B (b : B) (l : list A) : map fst (map (fun p => (p, b)) l) = l.
Proof.
  induction l as [|a l IH]; simpl; [reflexivity|]. rewrite IH. reflexivity.
Qed.


Ltac picks :=
  unfold prelude, spawns; repeat first [rewrite pick_app | progress simpl].

(** The Ignore calls of a whole set-up: none, or all entries with nil
    returned, or the entries up to the first that returned an error, which
    ended the process. *)
Lemma setup_pick_ignore env flags args res acts :
  SetupTrace env flags args res acts ->
  let entries := ignoreEntries (Split (ignore flags) comma) in
  (pick ignoreCall acts = [] /\ exists h, res = inl h)
  \/ (exists pre p post e, entries = pre ++ p :: post /\
        pick ignoreCall acts = map (fun q => (q, None)) pre ++ [(p, Some e)] /\
        res = inl (Fatal e))
  \/ pick ignoreCall acts = map (fun q => (q, None)) entries.
Proof.
  intros H entries. destruct H.
  - left. split; [reflexivity|eauto].
  - left. split; [reflexivity|eauto].
  - right. left.
    match goal with Hs : CallSeg CallIgnore _ (Some _) _ |- _ =>
      destruct (pick_ignore_seg Hs) as (pre & p & post & Hsplit & Hpick) end.
    exists pre, p, post, e. unfold prelude. simpl. auto.
  - right. right. picks.
    match goal with Hs : CallSeg CallIgnore _ None _ |- _ =>
      rewrite (pick_ignore_seg Hs) end.
    match goal with Hs : CallSeg (registerAction _) _ _ _ |- _ =>
      rewrite (register_seg_no_ignore _ Hs) end.
    apply app_nil_r.
  - right. right. picks.
    match goal with Hs : CallSeg CallIgnore _ None _ |- _ =>
      rewrite (pick_ignore_seg Hs) end.
    match goal with Hs : CallSeg (registerAction _) _ _ _ |- _ =>
      rewrite (register_seg_no_ignore _ Hs) end.
    rewrite prints_no_ignore by assumption. apply app_nil_r.
  - right. right. picks.
    match goal with Hs : CallSeg CallIgnore _ None _ |- _ =>
      rewrite (pick_ignore_seg Hs) end.
    match goal with Hs : CallSeg (registerAction _) _ _ _ |- _ =>
      rewrite (register_seg_no_ignore _ Hs) end.
    rewrite prints_no_ignore by assumption. apply app_nil_r.
Qed.










(** ** The set-up on small inputs *)

Example setup_default :
  done_actions (snd (runMain demoImpl demoEnv defaultFlags []))
  = [CallNew; CallIgnoreHiddenFiles false; GoStmt GReader;
     CallAddRecursive (lit "/work") None; PrintWatching 1;
     SignalNotify [Kill; Interrupt]; GoStmt GSignal; GoStmt GStartup;
     CallStart 100000000].
Proof. reflexivity. Qed.

Example setup_not_recursive :
  pick registered
    (done_actions (snd (runMain demoImpl demoEnv (withRecursive false defaultFlags)
                          [lit "a"; lit "b"])))
  = [(false, lit "a", None); (false, lit "b", None)].
Proof. reflexivity. Qed.

Example setup_ignore_missing :
  let r := runMain demoImpl demoEnv (withIgnore "a, missing ,b" defaultFlags) [] in
  fst r = inl (Fatal notFound)
  /\ done_actions (snd r)
     = [CallNew; CallIgnoreHiddenFiles false; CallIgnore (lit "a") None;
        CallIgnore (lit "missing") (Some notFound); LogFatalln notFound].
Proof. split; reflexivity. Qed.

Example setup_blank_cmd :
  fst (runMain demoImpl demoEnv (withCmd " " defaultFlags) []) = inl Panic.
Proof. reflexivity. Qed.

(** ** The claims about the set-up *)

(** C8. The command string is split on white space and element 0 of the
    split is read whenever the -cmd value is not empty. That read is in
    bounds exactly when the value holds a rune that is not white space:
    on a non-empty value made of white space only, [main] panics. *)
Theorem cmd_index_in_bounds impl flags (st : MainSt impl) :
  cmd flags <> [] ->
  (fst (parseCmd flags st) = inl Panic <-> forallb IsSpace (cmd flags) = true) /\
  (fst (parseCmd flags st) <> inl Panic
     <-> exists r, In r (cmd flags) /\ IsSpace r = false) /\
  (forall cap, fst (parseCmd flags st) = inr cap ->
     nth_error (FieldsFunc (cmd flags) IsSpace) 0 = Some (cmdName cap)).
Proof.
  intros Hne.
  assert (Hpanic : fst (parseCmd flags st) = inl Panic
                   <-> forallb IsSpace (cmd flags) = true).
  { rewrite <- FieldsFunc_nil. unfold parseCmd.
    destruct (cmd flags) as [|c rest] eqn:Hcmd; [congruence|]. simpl negb. cbv iota.
    destruct (FieldsFunc (c :: rest) IsSpace) as [|name more]; simpl.
    - tauto.
    - split; discriminate. }
  split; [exact Hpanic|]. split.
  - rewrite Hpanic, <- forallb_false_witness.
    destruct (forallb IsSpace (cmd flags)); split; congruence.
  - intros cap Hcap. unfold parseCmd in Hcap.
    destruct (cmd flags) as [|c rest] eqn:Hcmd; [congruence|]. simpl negb in Hcap.
    cbv iota in Hcap.
    destruct (FieldsFunc (c :: rest) IsSpace) as [|name more]; simpl in *.
    + discriminate.
    + inversion Hcap. reflexivity.
Qed.

Lemma cmd_index_in_bounds_witness :
  cmd (withCmd "   " defaultFlags) <> []
  /\ fst (parseCmd (withCmd "   " defaultFlags)
            {| watcher := New demoImpl; done_actions := [] |}) = inl Panic.
Proof.
  assert (Hne : cmd (withCmd "   " defaultFlags) <> []) by discriminate.
  split; [exact Hne|].
  apply (proj1 (@cmd_index_in_bounds demoImpl (withCmd "   " defaultFlags)
                  {| watcher := New demoImpl; done_actions := [] |} Hne)).
  reflexivity.
Defined.

(** With no -cmd value nothing is split and nothing is indexed. *)
Lemma parseCmd_empty impl flags (st : MainSt impl) :
  cmd flags = [] ->
  parseCmd flags st = (inr {| cmdName := []; cmdArgs := [] |}, st).
Proof. intros H. unfold parseCmd. rewrite H. reflexivity. Qed.







(** ** The goroutines, one step at a time *)

Lemma readerPc_eqb_eq a b : readerPc_eqb a b = true <-> a = b.
Proof. destruct a, b; simpl; split; congruence. Qed.

Lemma signalPc_eqb_eq a b : signalPc_eqb a b = true <-> a = b.
Proof. destruct a, b; simpl; split; congruence. Qed.

Lemma startupPc_eqb_eq a b : startupPc_eqb a b = true <-> a = b.
Proof. destruct a, b; simpl; split; congruence. Qed.

Lemma mainPc_eqb_eq a b : mainPc_eqb a b = true <-> a = b.
Proof. destruct a, b; simpl; split; congruence. Qed.

Lemma step_running impl flags cap l s s' :
  step impl flags cap l s = Some s' -> proc s = Running.
Proof. unfold step. destruct (proc s); [reflexivity | discriminate | discriminate]. Qed.

Lemma exec_app impl flags cap l1 l2 s :
  exec impl flags cap (l1 ++ l2) s
  = match exec impl flags cap l1 s with
    | Some s1 => exec impl flags cap l2 s1
    | None => None
    end.
Proof.
  revert s. induction l1 as [|l l1 IH]; intros s; simpl; [reflexivity|].
  destruct (step impl flags cap l s); [apply IH | reflexivity].
Qed.

Lemma exec_snoc impl flags cap ls l s s' :
  exec impl flags cap (ls ++ [l]) s = Some s' ->
  exists s1, exec impl flags cap ls s = Some s1 /\ step impl flags cap l s1 = Some s'.
Proof.
  rewrite exec_app. destruct (exec impl flags cap ls s) as [s1|]; [|discriminate].
  simpl. destruct (step impl flags cap l s1) as [s2|] eqn:Hs; [|discriminate].
  intros H. inversion H. subst. eauto.
Qed.

Lemma exec_split impl flags cap l1 l l2 s s' :
  exec impl flags cap (l1 ++ l :: l2) s = Some s' ->
  exists s1 s2,
    exec impl flags cap l1 s = Some s1 /\ step impl flags cap l s1 = Some s2 /\
    exec impl flags cap l2 s2 = Some s'.
Proof.
  rewrite exec_app. destruct (exec impl flags cap l1 s) as [s1|]; [|discriminate].
  simpl. destruct (step impl flags cap l s1) as [s2|] eqn:Hs; [|discriminate].
  intros H. eauto.
Qed.

(** What the reader's body can decide, case by case. *)
Lemma runAndCheck_ctl flags cap stdin r ctl :
  snd (runAndCheck flags cap stdin r ctl) = ctl
  \/ exists err, snd (runAndCheck flags cap stdin r ctl) = Exit (Fatal err).
Proof.
  unfold runAndCheck. destruct (run_err r) as [err|]; [|left; reflexivity].
  destruct ((match run_state r with
             | Some ps => negb (Success ps)
             | None => true
             end) && keepalive flags); simpl; eauto.
Qed.

Lemma readerBody_ctl impl flags cap c r :
  match c with
  | CaseClosed => snd (readerBody impl flags cap c r) = Return
  | _ => snd (readerBody impl flags cap c r) = Continue
         \/ exists err, snd (readerBody impl flags cap c r) = Exit (Fatal err)
  end.
Proof.
  destruct c as [event|err|]; simpl.
  - destruct (negb (isEmpty (cmd flags))); [|left; reflexivity].
    destruct (runAndCheck_ctl flags cap
                (if stdinPipe flags then StringReader (Event_String impl event) else OsStdin)
                r Continue) as [H|[err H]];
      destruct (runAndCheck flags cap _ r Continue) as [acts ctl]; simpl in *; eauto.
  - destruct (isErrWatchedFileDeleted err); simpl; eauto.
  - reflexivity.
Qed.

Lemma startupBody_ctl flags cap r :
  snd (startupBody flags cap r) = Return
  \/ exists err, snd (startupBody flags cap r) = Exit (Fatal err).
Proof.
  unfold startupBody. destruct (negb (isEmpty (cmd flags)) && startcmd flags).
  - apply runAndCheck_ctl.
  - left. reflexivity.
Qed.

(** ** Invariants of the running program *)

Ltac open_guard H :=
  match type of H with
  | (if ?c then _ else _) = Some _ =>
      let G := fresh "G" in
      destruct c eqn:G; [|discriminate H];
      repeat match type of G with
             | _ && _ = true =>
                 let G1 := fresh "G" in
                 apply andb_prop in G; destruct G as [G1 G]
             end
  end.

Ltac pcs :=
  repeat match goal with
         | H : readerPc_eqb _ _ = true |- _ => apply readerPc_eqb_eq in H
         | H : signalPc_eqb _ _ = true |- _ => apply signalPc_eqb_eq in H
         | H : startupPc_eqb _ _ = true |- _ => apply startupPc_eqb_eq in H
         | H : mainPc_eqb _ _ = true |- _ => apply mainPc_eqb_eq in H
         | H : negb _ = true |- _ => apply negb_true_iff in H
         end.

Lemma Inv_emit g acts s : Inv (emit g acts s) <-> Inv s.
Proof. unfold Inv. simpl. tauto. Qed.

Lemma Inv_reads impl flags cap c r s :
  proc s = Running -> readerPc s = RSelect ->
  (c = CaseClosed -> watcherClosed s = true) ->
  Inv s -> Inv (reads impl flags cap c r s).
Proof.
  intros Hrun Hpc Hclosed Hinv. unfold reads.
  pose proof (readerBody_ctl impl flags cap c r) as Hctl.
  destruct (readerBody impl flags cap c r) as [acts ctl]. simpl in Hctl.
  assert (Hcases : (c <> CaseClosed /\ (ctl = Continue \/ exists err, ctl = Exit (Fatal err)))
                   \/ (c = CaseClosed /\ ctl = Return)).
  { destruct c; [left|left|right]; split; auto; discriminate. }
  destruct Hcases as [[_ [->|[err ->]]]|[Hc ->]]; simpl.
  - apply Inv_emit. exact Hinv.
  - unfold Inv in *. simpl. rewrite Hrun in Hinv.
    intuition (try congruence).
  - specialize (Hclosed Hc). unfold Inv in *. simpl.
    rewrite Hpc in Hinv. intuition (try congruence).
Qed.

Lemma Inv_step impl flags cap l s s' :
  Inv s -> step impl flags cap l s = Some s' -> Inv s'.
Proof.
  intros Hinv Hstep. pose proof (step_running _ _ _ _ _ Hstep) as Hrun.
  unfold step in Hstep. rewrite Hrun in Hstep.
  destruct l as [event r|err| |sig| | |r| |[err|]| ]; open_guard Hstep; pcs;
    try (inversion Hstep; subst s'; clear Hstep).
  - apply Inv_reads; auto. discriminate.
  - apply Inv_reads; auto. discriminate.
  - apply Inv_reads; auto.
  - unfold Inv in *. simpl. rewrite G in Hinv. intuition (try congruence).
  - unfold Inv in *. simpl. rewrite G in Hinv. intuition (try congruence).
  - unfold Inv in *. simpl. rewrite G0 in Hinv. intuition (try congruence).
  - pose proof (startupBody_ctl flags cap r) as Hctl.
    destruct (startupBody flags cap r) as [acts ctl]. simpl in Hctl.
    inversion Hstep; subst s'; clear Hstep.
    destruct Hctl as [->|[err ->]]; unfold Inv in *; simpl;
      rewrite Hrun in Hinv; intuition (try congruence).
  - unfold watcherMayClose in G. apply andb_prop in G. destruct G as [G1 G2].
    unfold Inv in *. simpl. intuition (try congruence).
  - unfold Inv in *. simpl. rewrite Hrun in Hinv. rewrite G in Hinv.
    intuition (try congruence).
  - unfold startMayReturnNil in G. unfold Inv in *. simpl. rewrite G0 in Hinv.
    intuition (try congruence).
  - unfold Inv in *. simpl. rewrite G0 in Hinv. intuition (try congruence).
Qed.

Lemma Inv_boot impl env flags args : Inv (boot impl env flags args).
Proof.
  unfold boot. destruct (runMain impl env flags args) as [res st].
  destruct res as [h|cap]; unfold Inv; simpl.
  - destruct (spawned GReader (done_actions st)); intuition (try congruence).
  - intuition (try congruence).
Qed.

Lemma exec_Inv impl flags cap ls s s' :
  Inv s -> exec impl flags cap ls s = Some s' -> Inv s'.
Proof.
  revert s. induction ls as [|l ls IH]; intros s Hinv H; simpl in H.
  - inversion H. subst. exact Hinv.
  - destruct (step impl flags cap l s) as [s1|] eqn:Hs; [|discriminate].
    apply (IH s1); [|exact H]. eapply Inv_step; eauto.
Qed.

Lemma run_Inv impl env flags args ls s :
  run impl env flags args ls = Some s -> Inv s.
Proof. unfold run. apply exec_Inv, Inv_boot. Qed.

(** What one iteration of the reader changes besides the trace. *)
Lemma reads_fields impl flags cap c r s :
  let s' := reads impl flags cap c r s in
  mainPc s' = mainPc s /\ signalPc s' = signalPc s /\ startupPc s' = startupPc s /\
  closed s' = closed s /\ closeCalled s' = closeCalled s /\
  watcherClosed s' = watcherClosed s /\
  match c with
  | CaseClosed => readerPc s' = RReturned /\ done s' = true /\ proc s' = proc s
  | _ => readerPc s' = readerPc s /\ done s' = done s /\
         (proc s' = proc s \/ exists err, proc s' = Died (Fatal err))
  end.
Proof.
  unfold reads.
  pose proof (readerBody_ctl impl flags cap c r) as Hctl.
  destruct (readerBody impl flags cap c r) as [acts ctl]. simpl in Hctl.
  destruct c as [event|e0|];
    [destruct Hctl as [->|[err ->]] | destruct Hctl as [->|[err ->]] | subst ctl];
    simpl; repeat split; eauto.
Qed.

Ltac step_cases Hstep :=
  let Hrun := fresh "Hrun" in
  pose proof (step_running _ _ _ _ _ Hstep) as Hrun;
  unfold step in Hstep; rewrite Hrun in Hstep;
  try match type of Hstep with
      | context [match ?l with ReadEvent _ _ => _ | _ => _ end] =>
          destruct l as [?event ?r|?err| |?sig| | |?r| |[?err|]| ]
      end;
  open_guard Hstep; pcs.

Ltac reader_fields :=
  match goal with
  | H : Some (reads ?impl ?flags ?cap ?c ?r ?s) = Some ?s' |- _ =>
      let F := fresh "F" in
      pose proof (reads_fields impl flags cap c r s) as F;
      cbv zeta in F; inversion H; subst s'; clear H
  end.

Ltac startup_fields :=
  match goal with
  | H : (let (_, _) := startupBody ?flags ?cap ?r in _) = Some ?s' |- _ =>
      let C := fresh "C" in
      pose proof (startupBody_ctl flags cap r) as C;
      destruct (startupBody flags cap r) as [?acts ?ctl]; simpl in C;
      inversion H; subst s'; clear H;
      destruct C as [->|[?err ->]]
  end.

(** How a step moves each goroutine, whatever else it does. *)
Lemma step_readerPc impl flags cap l s s' :
  step impl flags cap l s = Some s' ->
  readerPc s' = match l with ReadClosed => RReturned | _ => readerPc s end.
Proof.
  intros Hstep. step_cases Hstep;
    try reader_fields; try startup_fields;
    try (inversion Hstep; subst s'); simpl; try tauto; try reflexivity.
Qed.

Lemma step_closeCalled impl flags cap l s s' :
  step impl flags cap l s = Some s' ->
  closeCalled s' = match l with SigClose => true | _ => closeCalled s end.
Proof.
  intros Hstep. step_cases Hstep;
    try reader_fields; try startup_fields;
    try (inversion Hstep; subst s'); simpl; try tauto; try reflexivity.
Qed.

Lemma step_signalPc impl flags cap l s s' :
  step impl flags cap l s = Some s' ->
  signalPc s' = match l with
                | SigRecv _ => SCallClose
                | SigClose => SWaitDone
                | SigDone => SReturned
                | _ => signalPc s
                end.
Proof.
  intros Hstep. step_cases Hstep;
    try reader_fields; try startup_fields;
    try (inversion Hstep; subst s'); simpl; try tauto; try reflexivity.
Qed.

Lemma step_startupPc impl flags cap l s s' :
  step impl flags cap l s = Some s' ->
  startupPc s' = startupPc s
  \/ (exists r, l = StartupRun r) /\ startupPc s = UReady /\ startupPc s' = UReturned.
Proof.
  intros Hstep. step_cases Hstep;
    try reader_fields; try startup_fields;
    try (inversion Hstep; subst s'); simpl; try tauto; eauto.
Qed.

Lemma step_proc_exited impl flags cap l s s' :
  step impl flags cap l s = Some s' ->
  (proc s' = Exited <-> l = MainReturns).
Proof.
  intros Hstep. step_cases Hstep;
    try reader_fields; try startup_fields;
    try (inversion Hstep; subst s'); simpl;
    try (split; [intros ?|discriminate]; try congruence);
    try (split; [reflexivity|reflexivity]).
  - exfalso. simpl in F.
    destruct F as (_ & _ & _ & _ & _ & _ & _ & _ & [F|[e F]]); congruence.
  - exfalso. simpl in F.
    destruct F as (_ & _ & _ & _ & _ & _ & _ & _ & [F|[e F]]); congruence.
Qed.

(** What must hold for a step to be taken. *)
Lemma step_guard impl flags cap l s s' :
  step impl flags cap l s = Some s' ->
  proc s = Running /\
  match l with
  | ReadEvent _ _ | ReadError _ => readerPc s = RSelect /\ watcherClosed s = false
  | ReadClosed => readerPc s = RSelect /\ watcherClosed s = true
  | SigRecv _ => signalPc s = SWaitSignal
  | SigClose => signalPc s = SCallClose
  | SigDone => signalPc s = SWaitDone /\ done s = true
  | StartupRun _ => startupPc s = UReady
  | WatcherCloses => closeCalled s = true /\ watcherClosed s = false
  | StartReturns None => mainPc s = MInStart /\ watcherClosed s = true
  | StartReturns (Some _) => mainPc s = MInStart
  | MainReturns => mainPc s = MWaitClosed /\ closed s = true
  end.
Proof.
  intros Hstep. step_cases Hstep;
    unfold watcherDelivers, watcherMayClose, startMayReturnNil in *;
    repeat match goal with
           | H : _ && _ = true |- _ => apply andb_prop in H; destruct H
           end;
    pcs; auto.
Qed.

(** ** Where the program starts *)

Lemma boot_init impl env flags args :
  let s := boot impl env flags args in
  readerPc s <> RReturned /\ closeCalled s = false /\
  (signalPc s = SWaitSignal \/ signalPc s = SNotSpawned) /\
  proc s <> Exited /\
  trace s = map (pair GMain) (done_actions (snd (runMain impl env flags args))) /\
  (proc s = Running ->
     fst (runMain impl env flags args) = inr (captured impl env flags args) /\
     startupPc s = UReady).
Proof.
  unfold boot, captured. destruct (runMain impl env flags args) as [res st].
  destruct res as [h|cap]; simpl.
  - destruct (spawned GReader (done_actions st));
      repeat split; auto; try discriminate.
  - repeat split; auto; discriminate.
Qed.

(** Only the first state of a schedule can be one that is not running. *)
Lemma run_running impl env flags args ls s :
  run impl env flags args ls = Some s ->
  proc s = Running \/ ls <> [] ->
  proc (boot impl env flags args) = Running.
Proof.
  unfold run. destruct ls as [|l ls]; simpl.
  - intros H [Hp|Hne]; [|congruence]. inversion H. subst. exact Hp.
  - intros H _.
    destruct (step impl flags (captured impl env flags args) l (boot impl env flags args))
      as [s1|] eqn:Hs; [|discriminate].
    eapply step_running. exact Hs.
Qed.

(** ** The history of a schedule *)

Lemma hist_reader impl env flags args ls s :
  run impl env flags args ls = Some s ->
  (readerPc s = RReturned <-> In ReadClosed ls).
Proof.
  unfold run. revert s. induction ls as [|l ls IH] using rev_ind; intros s H.
  - simpl in H. inversion H. subst s.
    destruct (boot_init impl env flags args) as (Hr & _). simpl. tauto.
  - apply exec_snoc in H. destruct H as (s1 & H1 & Hstep).
    rewrite (step_readerPc _ _ _ _ _ Hstep), in_app_iff. simpl.
    specialize (IH s1 H1).
    destruct l; rewrite ?IH; intuition (try discriminate).
Qed.

Lemma hist_close impl env flags args ls s :
  run impl env flags args ls = Some s ->
  closeCalled s = true -> In SigClose ls.
Proof.
  unfold run. revert s. induction ls as [|l ls IH] using rev_ind; intros s H.
  - simpl in H. inversion H. subst s.
    destruct (boot_init impl env flags args) as (_ & Hc & _). congruence.
  - apply exec_snoc in H. destruct H as (s1 & H1 & Hstep).
    rewrite (step_closeCalled _ _ _ _ _ Hstep), in_app_iff. simpl.
    specialize (IH s1 H1).
    destruct l; intuition.
Qed.

Lemma hist_signal impl env flags args ls s :
  run impl env flags args ls = Some s ->
  signalPc s = SCallClose \/ signalPc s = SWaitDone \/ signalPc s = SReturned ->
  exists sig, In (SigRecv sig) ls.
Proof.
  unfold run. revert s. induction ls as [|l ls IH] using rev_ind; intros s H Hpc.
  - simpl in H. inversion H. subst s.
    destruct (boot_init impl env flags args) as (_ & _ & Hs & _).
    exfalso. intuition congruence.
  - apply exec_snoc in H. destruct H as (s1 & H1 & Hstep).
    pose proof (step_signalPc _ _ _ _ _ Hstep) as Hs.
    pose proof (step_guard _ _ _ _ _ Hstep) as [_ Hg].
    assert (Hprev : (exists sig, l = SigRecv sig)
                    \/ signalPc s1 = SCallClose \/ signalPc s1 = SWaitDone
                    \/ signalPc s1 = SReturned).
    { destruct l; rewrite Hs in Hpc; eauto; right; intuition. }
    destruct Hprev as [[sig ->]|Hprev].
    + exists sig. apply in_or_app. simpl. auto.
    + destruct (IH s1 H1 Hprev) as [sig Hin]. exists sig. apply in_or_app. auto.
Qed.

Lemma step_trace impl flags cap l s s' :
  step impl flags cap l s = Some s' ->
  exists acts, trace s' = trace s ++ map (pair (actor l)) acts.
Proof.
  intros Hstep. step_cases Hstep.
  - inversion Hstep. subst s'. unfold reads.
    destruct (readerBody impl flags cap (CaseEvent event) r) as [acts ctl].
    exists acts. destruct ctl; reflexivity.
  - inversion Hstep. subst s'. unfold reads.
    destruct (readerBody impl flags cap (CaseError err) noRun) as [acts ctl].
    exists acts. destruct ctl; reflexivity.
  - inversion Hstep. subst s'. exists []. simpl. reflexivity.
  - inversion Hstep. subst s'. exists []. simpl. symmetry. apply app_nil_r.
  - inversion Hstep. subst s'. exists [CallClose]. reflexivity.
  - inversion Hstep. subst s'. exists [PrintWatcherClosed]. reflexivity.
  - destruct (startupBody flags cap r) as [acts ctl].
    inversion Hstep. subst s'. exists acts. destruct ctl; reflexivity.
  - inversion Hstep. subst s'. exists []. simpl. symmetry. apply app_nil_r.
  - inversion Hstep. subst s'. exists [LogFatalln err]. reflexivity.
  - inversion Hstep. subst s'. exists []. simpl. symmetry. apply app_nil_r.
  - inversion Hstep. subst s'. exists []. simpl. symmetry. apply app_nil_r.
Qed.

Lemma close_in_trace impl env flags args ls s :
  run impl env flags args ls = Some s ->
  closeCalled s = true -> In (GSignal, CallClose) (trace s).
Proof.
  unfold run. revert s. induction ls as [|l ls IH] using rev_ind; intros s H Hc.
  - simpl in H. inversion H. subst s.
    destruct (boot_init impl env flags args) as (_ & Hb & _). congruence.
  - apply exec_snoc in H. destruct H as (s1 & H1 & Hstep).
    destruct (step_trace _ _ _ _ _ Hstep) as [acts Htr].
    rewrite (step_closeCalled _ _ _ _ _ Hstep) in Hc.
    assert (Hl : l = SigClose \/ closeCalled s1 = true)
      by (destruct l; auto).
    destruct Hl as [->|Hprev].
    + clear Htr. step_cases Hstep. inversion Hstep. subst s. simpl.
      apply in_or_app. right. simpl. auto.
    + rewrite Htr. apply in_or_app. left. apply (IH s1 H1 Hprev).
Qed.

(** Once the reader has returned it takes no further step. *)
Lemma exec_reader_returned impl flags cap ls s s' :
  readerPc s = RReturned -> exec impl flags cap ls s = Some s' ->
  forall l, In l ls -> isReaderLabel l = false.
Proof.
  revert s. induction ls as [|l0 ls IH]; intros s Hr H l Hin; [contradiction|].
  simpl in H.
  destruct (step impl flags cap l0 s) as [s1|] eqn:Hs; [|discriminate].
  pose proof (step_guard _ _ _ _ _ Hs) as [_ Hg].
  assert (Hl0 : isReaderLabel l0 = false)
    by (destruct l0; simpl; auto; destruct Hg; congruence).
  destruct Hin as [<-|Hin]; [exact Hl0|].
  apply (IH s1); auto.
  rewrite (step_readerPc _ _ _ _ _ Hs). destruct l0; auto; discriminate.
Qed.

Lemma captured_parsed impl env flags args :
  proc (boot impl env flags args) = Running ->
  ParsedCmd flags (captured impl env flags args).
Proof.
  intros Hrun.
  destruct (boot_init impl env flags args) as (_ & _ & _ & _ & _ & Hb).
  destruct (Hb Hrun) as [Hres _].
  pose proof (runMain_trace impl env flags args) as H. rewrite Hres in H.
  inversion H. assumption.
Qed.

(** After a reading step that leaves the process running, the reader is
    back at its select and can read again. *)
Lemma reader_reads_again impl flags cap s s' l :
  step impl flags cap l s = Some s' -> isReadLabel l = true ->
  proc s' = Running ->
  readerPc s' = RSelect /\
  (forall event r, step impl flags cap (ReadEvent event r) s' <> None) /\
  (forall err, step impl flags cap (ReadError err) s' <> None).
Proof.
  intros Hstep Hl Hrun'.
  pose proof (step_guard _ _ _ _ _ Hstep) as [_ Hg].
  pose proof (step_readerPc _ _ _ _ _ Hstep) as Hr.
  assert (Hpc : readerPc s' = RSelect /\ watcherClosed s' = false).
  { step_cases Hstep; try discriminate Hl; inversion Hstep; subst s'.
    - destruct (reads_fields impl flags cap (CaseEvent event) r s)
        as (_ & _ & _ & _ & _ & Hw & Hrd & _).
      rewrite Hw, Hrd. unfold watcherDelivers in G. pcs. auto.
    - destruct (reads_fields impl flags cap (CaseError err) noRun s)
        as (_ & _ & _ & _ & _ & Hw & Hrd & _).
      rewrite Hw, Hrd. unfold watcherDelivers in G. pcs. auto. }
  destruct Hpc as [Hpc Hw]. split; [exact Hpc|].
  split; intros; unfold step; rewrite Hrun', Hpc; unfold watcherDelivers;
    rewrite Hw; simpl; discriminate.
Qed.

(** ** The claims about the event reader *)

(** C1. An error taken from the watcher's Error channel ends the process
    with log.Fatalln, unless it is watcher.ErrWatchedFileDeleted: that one
    is printed, and the reader goes on with its loop. *)
Theorem error_fatal_unless_deleted impl flags cap s err s' :
  step impl flags cap (ReadError err) s = Some s' ->
  (err <> ErrWatchedFileDeleted ->
     proc s' = Died (Fatal err) /\
     trace s' = trace s ++ [(GReader, LogFatalln err)]) /\
  (err = ErrWatchedFileDeleted ->
     proc s' = Running /\ readerPc s' = RSelect /\
     trace s' = trace s ++ [(GReader, PrintError err)] /\
     (forall event r, step impl flags cap (ReadEvent event r) s' <> None) /\
     (forall err', step impl flags cap (ReadError err') s' <> None)).
Proof.
  intros Hstep. pose proof Hstep as Hstep0.
  pose proof (step_running _ _ _ _ _ Hstep) as Hrun.
  unfold step in Hstep. rewrite Hrun in Hstep. open_guard Hstep.
  inversion Hstep. subst s'. clear Hstep. split.
  - intros Hne. unfold reads. simpl.
    destruct err as [|msg]; [congruence|]. simpl. auto.
  - intros ->.
    assert (Hp : proc (reads impl flags cap (CaseError ErrWatchedFileDeleted) noRun s)
                 = Running) by (unfold reads; simpl; exact Hrun).
    destruct (@reader_reads_again _ _ _ _ _ _ Hstep0 eq_refl Hp) as (Hpc & He & Her).
    repeat split; auto.
Qed.

Lemma error_fatal_unless_deleted_witness :
  exists s',
    step demoImpl defaultFlags (captured demoImpl demoEnv defaultFlags [])
      (ReadError notFound) (boot demoImpl demoEnv defaultFlags []) = Some s'
    /\ proc s' = Died (Fatal notFound).
Proof.
  destruct (step demoImpl defaultFlags (captured demoImpl demoEnv defaultFlags [])
              (ReadError notFound) (boot demoImpl demoEnv defaultFlags []))
    as [s'|] eqn:Hstep; [|vm_compute in Hstep; discriminate Hstep].
  exists s'. split; [reflexivity|].
  apply (proj1 (@error_fatal_unless_deleted _ _ _ _ _ _ Hstep)). discriminate.
Defined.

(** What an event step appends when a command is configured. *)
Lemma event_step_trace impl flags cap s event r s' :
  step impl flags cap (ReadEvent event r) s = Some s' ->
  cmd flags <> [] ->
  let ran := ExecRun (cmdName cap) (cmdArgs cap) (eventStdin impl flags event) r in
  match run_err r with
  | None =>
      proc s' = Running /\
      trace s' = trace s ++ map (pair GReader) [PrintEvent event; ran]
  | Some err =>
      if (match run_state r with
          | None => true
          | Some ps => negb (Success ps)
          end) && keepalive flags
      then proc s' = Running /\
           trace s' = trace s ++ map (pair GReader) [PrintEvent event; ran; LogPrintln err]
      else proc s' = Died (Fatal err) /\
           trace s' = trace s ++ map (pair GReader) [PrintEvent event; ran; LogFatalln err]
  end.
Proof.
  intros Hstep Hcmd ran.
  pose proof (step_running _ _ _ _ _ Hstep) as Hrun.
  unfold step in Hstep. rewrite Hrun in Hstep. open_guard Hstep.
  inversion Hstep. subst s'. clear Hstep.
  unfold reads, readerBody, runAndCheck, eventStdin in *.
  destruct (cmd flags) as [|c rest]; [congruence|]. simpl negb. cbv iota.
  destruct (run_err r) as [err|].
  - destruct ((match run_state r with
               | Some ps => negb (Success ps)
               | None => true
               end) && keepalive flags); simpl; auto.
  - simpl. auto.
Qed.

(** C3. With -keepalive, a per-event command that exits with a non-zero
    status has its error logged and the reader goes on with its loop;
    without -keepalive the same exit ends the process with log.Fatalln. *)
Theorem keepalive_nonzero_exit impl flags cap s event r err ps s' :
  step impl flags cap (ReadEvent event r) s = Some s' ->
  cmd flags <> [] ->
  run_err r = Some err -> run_state r = Some ps -> Success ps = false ->
  let ran := ExecRun (cmdName cap) (cmdArgs cap) (eventStdin impl flags event) r in
  (keepalive flags = true ->
     proc s' = Running /\ readerPc s' = RSelect /\
     trace s' = trace s ++ map (pair GReader) [PrintEvent event; ran; LogPrintln err] /\
     (forall event' r', step impl flags cap (ReadEvent event' r') s' <> None)) /\
  (keepalive flags = false ->
     proc s' = Died (Fatal err) /\
     trace s' = trace s ++ map (pair GReader) [PrintEvent event; ran; LogFatalln err]).
Proof.
  intros Hstep Hcmd Herr Hst Hfail ran.
  pose proof (@event_step_trace _ _ _ _ _ _ _ Hstep Hcmd) as H.
  cbv zeta in H. rewrite Herr, Hst, Hfail in H. simpl negb in H.
  split; intros Hk; rewrite Hk in H; simpl in H; destruct H as [Hp Htr].
  - destruct (@reader_reads_again _ _ _ _ _ _ Hstep eq_refl Hp) as (Hpc & He & _).
    repeat split; auto.
  - split; auto.
Qed.

Lemma keepalive_nonzero_exit_witness :
  exists s',
    step demoImpl (withKeepalive true (withCmd "make all" defaultFlags))
      (captured demoImpl demoEnv (withKeepalive true (withCmd "make all" defaultFlags)) [])
      (ReadEvent demoEvent ranExit1)
      (boot demoImpl demoEnv (withKeepalive true (withCmd "make all" defaultFlags)) [])
    = Some s'
    /\ proc s' = Running /\ readerPc s' = RSelect.
Proof.
  destruct (step demoImpl (withKeepalive true (withCmd "make all" defaultFlags))
      (captured demoImpl demoEnv (withKeepalive true (withCmd "make all" defaultFlags)) [])
      (ReadEvent demoEvent ranExit1)
      (boot demoImpl demoEnv (withKeepalive true (withCmd "make all" defaultFlags)) []))
    as [s'|] eqn:Hstep; [|vm_compute in Hstep; discriminate Hstep].
  exists s'. split; [reflexivity|].
  assert (Hcmd : cmd (withKeepalive true (withCmd "make all" defaultFlags)) <> [])
    by discriminate.
  destruct (proj1 (@keepalive_nonzero_exit _ _ _ _ _ _ _ {| ExitCode := 1 |} _
                     Hstep Hcmd eq_refl eq_refl eq_refl) eq_refl)
    as (Hp & Hpc & _).
  split; [exact Hp | exact Hpc].
Defined.

(** C9. With -keepalive the reader also goes on when the command failed
    without ever producing a process state (c.ProcessState is nil, as when
    it cannot be started): the error is logged, nothing is fatal. *)
Theorem keepalive_not_started impl flags cap s event r err s' :
  step impl flags cap (ReadEvent event r) s = Some s' ->
  cmd flags <> [] ->
  run_err r = Some err -> run_state r = None ->
  keepalive flags = true ->
  proc s' = Running /\ readerPc s' = RSelect /\
  trace s' = trace s ++
    map (pair GReader)
      [PrintEvent event;
       ExecRun (cmdName cap) (cmdArgs cap) (eventStdin impl flags event) r;
       LogPrintln err] /\
  (forall event' r', step impl flags cap (ReadEvent event' r') s' <> None).
Proof.
  intros Hstep Hcmd Herr Hst Hk.
  pose proof (@event_step_trace _ _ _ _ _ _ _ Hstep Hcmd) as H.
  cbv zeta in H. rewrite Herr, Hst, Hk in H. simpl in H. destruct H as [Hp Htr].
  destruct (@reader_reads_again _ _ _ _ _ _ Hstep eq_refl Hp) as (Hpc & He & _).
  repeat split; auto.
Qed.

Lemma keepalive_not_started_witness :
  exists s',
    step demoImpl (withKeepalive true (withCmd "nosuchtool" defaultFlags))
      (captured demoImpl demoEnv (withKeepalive true (withCmd "nosuchtool" defaultFlags)) [])
      (ReadEvent demoEvent notStarted)
      (boot demoImpl demoEnv (withKeepalive true (withCmd "nosuchtool" defaultFlags)) [])
    = Some s'
    /\ proc s' = Running /\ readerPc s' = RSelect.
Proof.
  destruct (step demoImpl (withKeepalive true (withCmd "nosuchtool" defaultFlags))
      (captured demoImpl demoEnv (withKeepalive true (withCmd "nosuchtool" defaultFlags)) [])
      (ReadEvent demoEvent notStarted)
      (boot demoImpl demoEnv (withKeepalive true (withCmd "nosuchtool" defaultFlags)) []))
    as [s'|] eqn:Hstep; [|vm_compute in Hstep; discriminate Hstep].
  exists s'. split; [reflexivity|].
  assert (Hcmd : cmd (withKeepalive true (withCmd "nosuchtool" defaultFlags)) <> [])
    by discriminate.
  destruct (@keepalive_not_started _ _ _ _ _ _ _ _ Hstep Hcmd eq_refl eq_refl eq_refl)
    as (Hp & Hpc & _).
  split; [exact Hp | exact Hpc].
Defined.

(** C5. For an event taken from the Event channel while a command is
    configured, the reader runs the command exactly once: the first field
    of the -cmd value with the remaining fields as arguments, reading from
    a reader over event.String() when -pipe is set and from os.Stdin
    otherwise. *)
Theorem event_runs_command impl env flags args ls s event r s' :
  run impl env flags args ls = Some s ->
  step impl flags (captured impl env flags args) (ReadEvent event r) s = Some s' ->
  cmd flags <> [] ->
  exists name rest new,
    FieldsFunc (cmd flags) IsSpace = name :: rest /\
    trace s' = trace s ++ map (pair GReader) new /\
    filter isExecRun new
      = [ExecRun name rest
           (if stdinPipe flags then StringReader (Event_String impl event) else OsStdin)
           r].
Proof.
  intros Hrun Hstep Hcmd.
  assert (Hboot : proc (boot impl env flags args) = Running).
  { apply (@run_running _ _ _ _ _ _ Hrun). left. eapply step_running. exact Hstep. }
  pose proof (@captured_parsed _ _ _ _ Hboot) as Hcap.
  pose proof (@event_step_trace _ _ _ _ _ _ _ Hstep Hcmd) as H. cbv zeta in H.
  clear Hrun Hboot Hstep.
  set (cap := captured impl env flags args) in *. clearbody cap.
  destruct Hcap as [Hnil|name rest _ Hsplit]; [congruence|].
  simpl cmdName in H. simpl cmdArgs in H. unfold eventStdin in H.
  exists name, rest.
  destruct (run_err r) as [err|].
  - destruct ((match run_state r with
               | Some ps => negb (Success ps)
               | None => true
               end) && keepalive flags); destruct H as [_ Htr];
      eexists; (split; [exact Hsplit|]); (split; [exact Htr|]); reflexivity.
  - destruct H as [_ Htr].
    eexists; (split; [exact Hsplit|]); (split; [exact Htr|]); reflexivity.
Qed.

Lemma event_runs_command_witness :
  exists s' new,
    step demoImpl (withPipe true (withCmd "make all" defaultFlags))
      (captured demoImpl demoEnv (withPipe true (withCmd "make all" defaultFlags)) [])
      (ReadEvent demoEvent ranOk)
      (boot demoImpl demoEnv (withPipe true (withCmd "make all" defaultFlags)) [])
    = Some s'
    /\ trace s'
       = trace (boot demoImpl demoEnv (withPipe true (withCmd "make all" defaultFlags)) [])
         ++ map (pair GReader) new
    /\ filter isExecRun new
       = [ExecRun (lit "make") [lit "all"] (StringReader (lit "/work/a.txt")) ranOk].
Proof.
  destruct (step demoImpl (withPipe true (withCmd "make all" defaultFlags))
      (captured demoImpl demoEnv (withPipe true (withCmd "make all" defaultFlags)) [])
      (ReadEvent demoEvent ranOk)
      (boot demoImpl demoEnv (withPipe true (withCmd "make all" defaultFlags)) []))
    as [s'|] eqn:Hstep; [|vm_compute in Hstep; discriminate Hstep].
  assert (Hcmd : cmd (withPipe true (withCmd "make all" defaultFlags)) <> [])
    by discriminate.
  destruct (@event_runs_command demoImpl demoEnv
              (withPipe true (withCmd "make all" defaultFlags)) [] [] _
              demoEvent ranOk _ eq_refl Hstep Hcmd)
    as (name & rest & new & Hsplit & Htr & Hruns).
  vm_compute in Hsplit. inversion Hsplit. subst name rest.
  exists s', new. split; [reflexivity|]. split; [exact Htr | exact Hruns].
Defined.

(** ** Shutdown on a signal *)

(** A full clean shutdown is a schedule of the program. *)
Example clean_shutdown_runs :
  option_map proc (run demoImpl demoEnv defaultFlags [] cleanShutdown) = Some Exited.
Proof. reflexivity. Qed.

(** C2 does not hold as stated: the process can finish, after a signal
    was received and Close() called, while the reader has not observed
    Closed. In [fatalAfterClose] the reader takes an error other than
    ErrWatchedFileDeleted between Close() and the closing of Closed, and
    log.Fatalln (line 148) ends the process with the reader still at its
    select. *)
Lemma finishes_before_reader_returns :
  ~ (forall ls s,
       run demoImpl demoEnv defaultFlags [] ls = Some s ->
       FinishesAfterReader ls s).
Proof.
  intros H.
  destruct (run demoImpl demoEnv defaultFlags [] fatalAfterClose)
    as [s|] eqn:Hrun; [|vm_compute in Hrun; discriminate Hrun].
  specialize (H fatalAfterClose s Hrun).
  assert (Hp : proc s = Died (Fatal notFound))
    by (vm_compute in Hrun; inversion Hrun; reflexivity).
  assert (Hr : readerPc s = RSelect)
    by (vm_compute in Hrun; inversion Hrun; reflexivity).
  assert (Hret : readerPc s = RReturned).
  { apply H.
    - exists Interrupt. left. reflexivity.
    - rewrite Hp. discriminate. }
  rewrite Hr in Hret. discriminate Hret.
Qed.

(** C2, as the code has it. The handler that has taken a signal
    (Interrupt or Kill) from its channel calls w.Close() next and nothing
    else, and Close() is called only so. [main] returns, which is how the
    process finishes other than by log.Fatalln, only after the reader has
    observed the Closed signal and returned, which in turn is after
    Close() was called on a received signal. The reader returns exactly
    by observing Closed, and reads nothing afterwards. *)
Theorem shutdown_handshake impl env flags args ls s :
  run impl env flags args ls = Some s ->
  let cap := captured impl env flags args in
  (forall sig, proc s = Running -> signalPc s = SWaitSignal ->
     exists s1 s2,
       step impl flags cap (SigRecv sig) s = Some s1 /\
       (forall l s', step impl flags cap l s1 = Some s' -> actor l = GSignal -> l = SigClose) /\
       step impl flags cap SigClose s1 = Some s2 /\
       closeCalled s2 = true /\
       trace s2 = trace s ++ [(GSignal, CallClose)]) /\
  (proc s = Exited ->
     readerPc s = RReturned /\ In (GSignal, CallClose) (trace s)) /\
  (forall l1 l2, ls = l1 ++ SigClose :: l2 -> exists sig, In (SigRecv sig) l1) /\
  (forall l1 l2, ls = l1 ++ MainReturns :: l2 ->
     In ReadClosed l1 /\ In SigClose l1 /\ exists sig, In (SigRecv sig) l1) /\
  (readerPc s = RReturned <-> In ReadClosed ls) /\
  (forall l1 l2, ls = l1 ++ ReadClosed :: l2 ->
     In SigClose l1 /\ forall l, In l l2 -> isReaderLabel l = false).
Proof.
  intros Hrun cap.
  pose proof (run_Inv _ _ _ _ _ Hrun) as Hinv.
  split; [|split; [|split; [|split; [|split]]]].
  - intros sig Hp Hpc.
    exists (set_signalPc SCallClose s).
    exists (set_closeCalled true
              (set_signalPc SWaitDone (emit GSignal [CallClose] (set_signalPc SCallClose s)))).
    split; [|split; [|split; [|split]]].
    + unfold step. rewrite Hp, Hpc. reflexivity.
    + intros l s' Hstep Hactor.
      pose proof (step_guard _ _ _ _ _ Hstep) as [_ Hg].
      destruct l; simpl in Hactor; try discriminate Hactor; simpl in Hg;
        [discriminate Hg | reflexivity | destruct Hg as [Hg _]; discriminate Hg].
    + unfold step. simpl. rewrite Hp. reflexivity.
    + reflexivity.
    + reflexivity.
  - intros Hexit.
    destruct Hinv as (Hd & _ & _ & Hcc & Hcl & Hsr & _ & Hpe & Hmr).
    assert (Hclosed : closed s = true) by (apply Hmr, Hpe, Hexit).
    assert (Hs : signalPc s = SReturned) by (apply Hcl, Hclosed).
    split.
    + apply Hd, Hsr, Hs.
    + apply (close_in_trace _ _ _ _ _ Hrun). apply Hcc. right. exact Hs.
  - intros l1 l2 ->. unfold run in Hrun.
    apply exec_split in Hrun. destruct Hrun as (s1 & s2 & H1 & Hstep & _).
    pose proof (step_guard _ _ _ _ _ Hstep) as [_ Hpc]. simpl in Hpc.
    apply (hist_signal impl env flags args l1 H1). left. exact Hpc.
  - intros l1 l2 ->. unfold run in Hrun.
    apply exec_split in Hrun. destruct Hrun as (s1 & s2 & H1 & Hstep & _).
    pose proof (step_guard _ _ _ _ _ Hstep) as [_ [_ Hclosed]].
    pose proof (run_Inv impl env flags args l1 H1)
      as (Hd & _ & _ & Hcc & Hcl & Hsr & _).
    assert (Hs : signalPc s1 = SReturned) by (apply Hcl, Hclosed).
    split; [|split].
    + apply (hist_reader impl env flags args l1 H1). apply Hd, Hsr, Hs.
    + apply (hist_close impl env flags args l1 H1). apply Hcc. right. exact Hs.
    + apply (hist_signal impl env flags args l1 H1). right. right. exact Hs.
  - apply (hist_reader _ _ _ _ _ Hrun).
  - intros l1 l2 ->. unfold run in Hrun.
    apply exec_split in Hrun. destruct Hrun as (s1 & s2 & H1 & Hstep & H2).
    split.
    + pose proof (step_guard _ _ _ _ _ Hstep) as [_ [_ Hwc]].
      pose proof (run_Inv impl env flags args l1 H1) as (_ & _ & Hc & _).
      apply (hist_close impl env flags args l1 H1). apply Hc, Hwc.
    + eapply exec_reader_returned; [|exact H2].
      rewrite (step_readerPc _ _ _ _ _ Hstep). reflexivity.
Qed.

Lemma shutdown_handshake_witness :
  exists s,
    run demoImpl demoEnv defaultFlags [] cleanShutdown = Some s
    /\ proc s = Exited
    /\ readerPc s = RReturned
    /\ In (GSignal, CallClose) (trace s).
Proof.
  destruct (run demoImpl demoEnv defaultFlags [] cleanShutdown)
    as [s|] eqn:Hrun; [|vm_compute in Hrun; discriminate Hrun].
  assert (Hexit : proc s = Exited)
    by (vm_compute in Hrun; inversion Hrun; reflexivity).
  exists s. split; [reflexivity|]. split; [exact Hexit|].
  destruct (@shutdown_handshake demoImpl demoEnv defaultFlags [] cleanShutdown s Hrun)
    as (_ & H & _).
  exact (H Hexit).
Defined.

(** ** The command at start-up *)

Lemma startupRuns_app a b : startupRuns (a ++ b) = startupRuns a ++ startupRuns b.
Proof. unfold startupRuns. apply filter_app. Qed.

Lemma startupRuns_other g acts :
  g <> GStartup -> startupRuns (map (pair g) acts) = [].
Proof.
  intros Hg. induction acts as [|a acts IH]; simpl; [reflexivity|].
  unfold isStartupRun at 1. simpl.
  destruct g; try congruence; simpl; exact IH.
Qed.

Lemma step_other_runs impl flags cap l s s' :
  step impl flags cap l s = Some s' -> actor l <> GStartup ->
  startupRuns (trace s') = startupRuns (trace s) /\ startupPc s' = startupPc s.
Proof.
  intros Hstep Hactor. split.
  - destruct (step_trace _ _ _ _ _ Hstep) as [acts ->].
    rewrite startupRuns_app, (startupRuns_other _ Hactor). apply app_nil_r.
  - destruct (step_startupPc _ _ _ _ _ Hstep) as [H|[[r ->] _]]; [exact H|].
    simpl in Hactor. congruence.
Qed.

Lemma step_startup_runs impl flags cap r s s' :
  step impl flags cap (StartupRun r) s = Some s' ->
  startupRuns (trace s')
    = startupRuns (trace s)
      ++ (if startcmdSet flags
          then [(GStartup, ExecRun (cmdName cap) (cmdArgs cap) OsStdin r)]
          else []) /\
  (proc s' = Running -> startupPc s' = UReturned) /\
  proc s = Running /\ startupPc s = UReady.
Proof.
  intros Hstep. pose proof (step_guard _ _ _ _ _ Hstep) as [Hrun Hg].
  simpl in Hg. unfold step in Hstep. rewrite Hrun, Hg in Hstep. simpl in Hstep.
  unfold startupBody, runAndCheck, startcmdSet in *.
  destruct (negb (isEmpty (cmd flags)) && startcmd flags).
  - destruct (run_err r) as [err|].
    + destruct ((match run_state r with
                 | Some ps => negb (Success ps)
                 | None => true
                 end) && keepalive flags);
        inversion Hstep; subst s'; simpl; rewrite startupRuns_app;
        repeat split; auto; discriminate.
    + inversion Hstep; subst s'; simpl; rewrite startupRuns_app; repeat split; auto.
  - inversion Hstep; subst s'; simpl. rewrite !app_nil_r. repeat split; auto.
Qed.

Lemma boot_no_startup_runs impl env flags args :
  startupRuns (trace (boot impl env flags args)) = [] /\
  startupPc (boot impl env flags args) <> UReturned.
Proof.
  destruct (boot_init impl env flags args) as (_ & _ & _ & _ & Htr & _).
  split.
  - rewrite Htr. apply startupRuns_other. discriminate.
  - unfold boot. destruct (runMain impl env flags args) as [[h|cap] st];
      simpl; discriminate.
Qed.

Lemma run_StartupShape impl env flags args ls s :
  run impl env flags args ls = Some s ->
  StartupShape flags (captured impl env flags args) s.
Proof.
  unfold run. revert s. induction ls as [|l ls IH] using rev_ind; intros s H.
  - simpl in H. inversion H. subst s.
    destruct (boot_no_startup_runs impl env flags args) as [Hruns Hpc].
    left. split; [exact Hruns | intros; congruence].
  - apply exec_snoc in H. destruct H as (s1 & H1 & Hstep).
    specialize (IH s1 H1).
    pose proof (step_running _ _ _ _ _ Hstep) as Hrun1.
    assert (Hl : (exists r, l = StartupRun r) \/ actor l <> GStartup)
      by (destruct l; simpl; eauto; right; discriminate).
    destruct Hl as [[r ->]|Hactor].
    + destruct (@step_startup_runs _ _ _ _ _ _ Hstep) as (Hruns & Hret & _ & Hready).
      assert (Hnone : startupRuns (trace s1) = []).
      { destruct IH as [[Hn _]|(r0 & _ & _ & Hr0)]; [exact Hn|].
        specialize (Hr0 Hrun1). congruence. }
      rewrite Hnone in Hruns. simpl in Hruns.
      destruct (startcmdSet flags) eqn:Hset.
      * right. exists r. auto.
      * left. auto.
    + destruct (@step_other_runs _ _ _ _ _ _ Hstep Hactor) as [Hruns Hpc].
      destruct IH as [[Hn Hr]|(r0 & Hr0 & Hset & Hret)].
      * left. rewrite Hruns, Hpc. auto.
      * right. exists r0. rewrite Hruns, Hpc. auto.
Qed.

Lemma boot_spawns_before_start impl env flags args :
  proc (boot impl env flags args) = Running ->
  exists pre d,
    trace (boot impl env flags args)
      = map (pair GMain) (pre ++ [GoStmt GStartup; CallStart d]).
Proof.
  intros Hrun.
  destruct (boot_init impl env flags args) as (_ & _ & _ & _ & Htr & Hb).
  destruct (Hb Hrun) as [Hres _].
  pose proof (runMain_trace impl env flags args) as H. rewrite Hres in H.
  inversion H as [| | | | |files cap d igs adds rep Hf Hcap Higs Hadds Hrep Hdur Hc Hacts].
  rewrite Htr, <- Hacts.
  exists (prelude flags ++ igs ++ [GoStmt GReader] ++ adds ++ rep
          ++ [SignalNotify [Kill; Interrupt]; GoStmt GSignal]), d.
  unfold spawns. rewrite <- !app_assoc. reflexivity.
Qed.

Lemma startcmdSet_true flags :
  startcmdSet flags = true <-> cmd flags <> [] /\ startcmd flags = true.
Proof.
  unfold startcmdSet. destruct (cmd flags); simpl; split.
  - discriminate.
  - intros [H _]. congruence.
  - intros H. split; [discriminate | exact H].
  - intros [_ H]. exact H.
Qed.

(** The start-up run is not ordered before the event-driven runs: with
    -cmd and -startcmd set, an event can be handled, and the command run
    for it, before the start-up goroutine has run the command. *)
Lemma startup_run_not_first :
  ~ (forall ls s,
       run demoImpl demoEnv startcmdFlags [] ls = Some s ->
       StartupRunsFirst (trace s)).
Proof.
  intros H.
  destruct (run demoImpl demoEnv startcmdFlags [] eventFirst)
    as [s|] eqn:Hrun; [|vm_compute in Hrun; discriminate Hrun].
  specialize (H eventFirst s Hrun).
  vm_compute in Hrun. inversion Hrun as [Hs]. clear Hrun.
  rewrite <- Hs in H. unfold StartupRunsFirst in H. simpl trace in H.
  match type of H with
  | forall pre a post, ?tr = _ -> _ =>
      specialize (H (firstn 10 tr)
                    (ExecRun (lit "make") [lit "all"] OsStdin ranOk)
                    (skipn 11 tr) eq_refl eq_refl)
  end.
  destruct H as (b & Hb & Hin).
  simpl in Hin.
  repeat (destruct Hin as [Hin|Hin]; [discriminate Hin|]).
  exact Hin.
Qed.

(** C4 at the failing input. The comment on line 196 says "Run the
    command before watcher starts", but the run is made in a goroutine
    that nothing orders before w.Start or the reader. With -cmd "make
    all" and -startcmd set, in the schedule [eventFirst] the runs of the
    command are, in this order, the reader's run for an event and only
    then the start-up goroutine's run: the start-up run does not come
    before the event-driven one. *)
Theorem startup_run_after_event_run :
  exists s,
    run demoImpl demoEnv startcmdFlags [] eventFirst = Some s /\
    filter (fun ga => isExecRun (snd ga)) (trace s)
    = [(GReader, ExecRun (lit "make") [lit "all"] OsStdin ranOk);
       (GStartup, ExecRun (lit "make") [lit "all"] OsStdin ranOk)] /\
    ~ StartupRunsFirst (trace s).
Proof.
  destruct (run demoImpl demoEnv startcmdFlags [] eventFirst)
    as [s|] eqn:Hrun; [|vm_compute in Hrun; discriminate Hrun].
  exists s. split; [reflexivity|].
  assert (Hruns : filter (fun ga => isExecRun (snd ga)) (trace s)
                  = [(GReader, ExecRun (lit "make") [lit "all"] OsStdin ranOk);
                     (GStartup, ExecRun (lit "make") [lit "all"] OsStdin ranOk)])
    by (vm_compute in Hrun; inversion Hrun; reflexivity).
  split; [exact Hruns|].
  intros H.
  assert (Hsplit : exists pre post,
             trace s = pre ++ (GReader, ExecRun (lit "make") [lit "all"] OsStdin ranOk)
                               :: post /\
             forall b, In (GStartup, b) pre -> isExecRun b = false).
  { vm_compute in Hrun. inversion Hrun as [Hs]. simpl trace.
    match goal with
    | |- exists pre post, ?tr = _ /\ _ =>
        exists (firstn 10 tr), (skipn 11 tr)
    end.
    split; [reflexivity|].
    intros b Hin. simpl in Hin.
    repeat (destruct Hin as [Hin|Hin]; [discriminate Hin|]).
    contradiction. }
  destruct Hsplit as (pre & post & Htr & Hpre).
  destruct (H pre _ post Htr eq_refl) as (b & Hb & Hin).
  rewrite (Hpre b Hin) in Hb. discriminate Hb.
Qed.

(** What holds of the start-up run in every schedule. With -cmd and
    -startcmd both set, [main] starts, right before it calls w.Start, a
    goroutine that runs the configured command on os.Stdin: at most one
    such run is ever made, exactly one has been made once that goroutine
    has returned, and the goroutine can always take its step. With
    either flag unset it runs nothing. *)
Theorem startup_command_once impl env flags args ls s :
  run impl env flags args ls = Some s ->
  let cap := captured impl env flags args in
  let runs := startupRuns (trace s) in
  (proc (boot impl env flags args) = Running ->
     exists pre d,
       trace (boot impl env flags args)
         = map (pair GMain) (pre ++ [GoStmt GStartup; CallStart d])) /\
  (List.length runs <= 1)%nat /\
  (forall a, In a runs ->
     cmd flags <> [] /\ startcmd flags = true /\
     exists name rest r,
       FieldsFunc (cmd flags) IsSpace = name :: rest /\
       a = (GStartup, ExecRun name rest OsStdin r)) /\
  (cmd flags <> [] -> startcmd flags = true -> startupPc s = UReturned ->
     List.length runs = 1%nat) /\
  (cmd flags = [] \/ startcmd flags = false -> runs = []) /\
  (proc s = Running -> startupPc s = UReady ->
     runs = [] /\ forall r, step impl flags cap (StartupRun r) s <> None).
Proof.
  intros Hrun cap runs.
  pose proof (@run_StartupShape _ _ _ _ _ _ Hrun) as Hshape. fold cap in Hshape.
  split; [apply boot_spawns_before_start|].
  split; [|split; [|split; [|split]]].
  - destruct Hshape as [[Hn _]|(r & Hr & _)]; unfold runs; [rewrite Hn|rewrite Hr];
      simpl; lia.
  - intros a Ha.
    destruct Hshape as [[Hn _]|(r & Hr & Hset & _)]; unfold runs in Ha.
    + rewrite Hn in Ha. contradiction.
    + rewrite Hr in Ha. destruct Ha as [<-|[]].
      apply startcmdSet_true in Hset. destruct Hset as [Hcmd Hstart].
      split; [exact Hcmd|]. split; [exact Hstart|].
      assert (Hboot : proc (boot impl env flags args) = Running).
      { destruct ls as [|l0 ls0].
        - exfalso. unfold run in Hrun. simpl in Hrun. inversion Hrun. subst s.
          destruct (boot_no_startup_runs impl env flags args) as [Hb _].
          rewrite Hb in Hr. discriminate.
        - apply (@run_running _ _ _ _ _ _ Hrun). right. discriminate. }
      pose proof (@captured_parsed _ _ _ _ Hboot) as Hcap. fold cap in Hcap.
      clearbody cap. destruct Hcap as [Hnil|name rest _ Hsplit]; [congruence|].
      exists name, rest, r. auto.
  - intros Hcmd Hstart Hret.
    destruct Hshape as [[_ Hn]|(r & Hr & _)].
    + specialize (Hn Hret).
      assert (startcmdSet flags = true) by (apply startcmdSet_true; auto).
      congruence.
    + unfold runs. rewrite Hr. reflexivity.
  - intros Hunset.
    destruct Hshape as [[Hn _]|(r & _ & Hset & _)]; [exact Hn|].
    apply startcmdSet_true in Hset. destruct Hset as [Hcmd Hstart].
    destruct Hunset; congruence.
  - intros Hp Hready. split.
    + destruct Hshape as [[Hn _]|(r & _ & _ & Hret)]; [exact Hn|].
      specialize (Hret Hp). congruence.
    + intros r. unfold step. rewrite Hp, Hready. simpl.
      destruct (startupBody flags cap r). discriminate.
Qed.

Lemma startup_command_once_witness :
  exists s,
    run demoImpl demoEnv startcmdFlags [] eventFirst = Some s
    /\ startupPc s = UReturned
    /\ List.length (startupRuns (trace s)) = 1%nat.
Proof.
  destruct (run demoImpl demoEnv startcmdFlags [] eventFirst)
    as [s|] eqn:Hrun; [|vm_compute in Hrun; discriminate Hrun].
  assert (Hret : startupPc s = UReturned)
    by (vm_compute in Hrun; inversion Hrun; reflexivity).
  exists s. split; [reflexivity|]. split; [exact Hret|].
  destruct (@startup_command_once demoImpl demoEnv startcmdFlags [] eventFirst s Hrun)
    as (_ & _ & _ & H & _).
  apply H; [discriminate | reflexivity | exact Hret].
Defined.

(** * Further properties *)

Unset Implicit Arguments.

(** ** The fields of the command string *)

Lemma fieldsLoop_fields f s cur spans :
  forallb (isField f) spans = true ->
  (forall fld, cur = Some fld -> isField f fld = true) ->
  forallb (isField f) (fieldsLoop f s cur spans) = true.
Proof.
  revert cur spans. induction s as [|r s IH]; intros cur spans Hs Hc; simpl.
  - destruct cur as [fld|]; [|exact Hs].
    rewrite forallb_app, Hs. simpl. rewrite (Hc fld eq_refl). reflexivity.
  - destruct (f r) eqn:Hf; destruct cur as [fld|]; apply IH; auto;
      try discriminate.
    + rewrite forallb_app, Hs. simpl. rewrite (Hc fld eq_refl). reflexivity.
    + intros fld' H. inversion H. subst fld'.
      specialize (Hc fld eq_refl). unfold isField in *.
      apply andb_prop in Hc. destruct Hc as [_ Hc].
      rewrite existsb_app. simpl. rewrite Hf.
      apply negb_true_iff in Hc. rewrite Hc.
      destruct fld; reflexivity.
    + intros fld' H. inversion H. subst fld'.
      unfold isField. simpl. rewrite Hf. reflexivity.
Qed.

Lemma fieldsLoop_concat f s cur spans :
  List.concat (fieldsLoop f s cur spans)
  = List.concat spans ++ match cur with Some fld => fld | None => [] end
    ++ filter (fun r => negb (f r)) s.
Proof.
  revert cur spans. induction s as [|r s IH]; intros cur spans; simpl.
  - destruct cur as [fld|].
    + rewrite concat_app. simpl. rewrite !app_nil_r. reflexivity.
    + rewrite app_nil_r. reflexivity.
  - destruct (f r) eqn:Hf; destruct cur as [fld|]; rewrite IH; simpl.
    + rewrite concat_app. simpl. rewrite app_nil_r, <- app_assoc. reflexivity.
    + reflexivity.
    + rewrite <- !app_assoc. reflexivity.
    + reflexivity.
Qed.

(** X1. When -cmd parses, the program name is a proper field: it is not
    empty and holds no white space, and so is every argument; name and
    arguments together are the runes of the value that are not white
    space, in order. *)
Theorem parsed_cmd_fields impl flags (st : MainSt impl) cap :
  fst (parseCmd flags st) = inr cap ->
  cmd flags <> [] ->
  isField IsSpace (cmdName cap) = true /\
  forallb (isField IsSpace) (cmdArgs cap) = true /\
  List.concat (cmdName cap :: cmdArgs cap)
    = filter (fun r => negb (IsSpace r)) (cmd flags) /\
  cmdName cap :: cmdArgs cap = FieldsFunc (cmd flags) IsSpace.
Proof.
  intros Hcap Hne.
  assert (Hsplit : cmdName cap :: cmdArgs cap = FieldsFunc (cmd flags) IsSpace).
  { unfold parseCmd in Hcap.
    destruct (cmd flags) as [|c rest] eqn:Hcmd; [congruence|].
    simpl negb in Hcap. cbv iota in Hcap.
    destruct (FieldsFunc (c :: rest) IsSpace) as [|name more]; simpl in Hcap.
    - discriminate.
    - inversion Hcap. simpl. destruct more; reflexivity. }
  pose proof (@fieldsLoop_fields IsSpace (cmd flags) None [] eq_refl) as Hf.
  fold (FieldsFunc (cmd flags) IsSpace) in Hf. rewrite <- Hsplit in Hf.
  simpl in Hf.
  assert (Hf' : isField IsSpace (cmdName cap) && forallb (isField IsSpace) (cmdArgs cap) = true)
    by (apply Hf; intros fld H; discriminate H).
  apply andb_prop in Hf'. destruct Hf' as [Hn Ha].
  split; [exact Hn|]. split; [exact Ha|]. split; [|exact Hsplit].
  rewrite Hsplit. unfold FieldsFunc. rewrite fieldsLoop_concat. reflexivity.
Qed.

Lemma parsed_cmd_fields_witness :
  cmd (withCmd " go  test ./... " defaultFlags) <> []
  /\ List.concat [lit "go"; lit "test"; lit "./..."]
     = filter (fun r => negb (IsSpace r)) (lit " go  test ./... ").
Proof.
  assert (Hne : cmd (withCmd " go  test ./... " defaultFlags) <> []) by discriminate.
  split; [exact Hne|].
  destruct (@parsed_cmd_fields demoImpl (withCmd " go  test ./... " defaultFlags)
              {| watcher := New demoImpl; done_actions := [] |}
              {| cmdName := lit "go"; cmdArgs := [lit "test"; lit "./..."] |}
              eq_refl Hne) as (_ & _ & H & _).
  exact H.
Defined.

(** ** The paths handed to Ignore *)

Lemma Split_nonempty s sep : Split s sep <> [].
Proof.
  destruct s as [|r s]; simpl; [discriminate|].
  destruct (r =? sep)%N; [discriminate|].
  destruct (Split s sep); discriminate.
Qed.

Lemma Split_no_sep s sep piece :
  In piece (Split s sep) -> ~ In sep piece.
Proof.
  revert piece. induction s as [|r s IH]; intros piece Hin; simpl in Hin.
  - destruct Hin as [<-|[]]. intros [].
  - destruct (r =? sep)%N eqn:Hr.
    + destruct Hin as [<-|Hin]; [intros []|]. apply IH. exact Hin.
    + destruct (Split s sep) as [|p rest] eqn:Hs.
      * exfalso. exact (Split_nonempty s sep Hs).
      * destruct Hin as [<-|Hin].
        -- intros [Heq|Hp].
           ++ subst r. rewrite N.eqb_refl in Hr. discriminate.
           ++ apply (IH p); [left; reflexivity | exact Hp].
        -- apply IH. right. exact Hin.
Qed.

Lemma Join_cons_nil l sep : l <> [] -> Join ([] :: l) sep = sep :: Join l sep.
Proof. destruct l; [congruence | reflexivity]. Qed.

Lemma Join_cons_rune r p rest sep :
  Join ((r :: p) :: rest) sep = r :: Join (p :: rest) sep.
Proof. destruct rest; reflexivity. Qed.

(** Split loses nothing: joining the pieces with the separator gives the
    string back. *)
Lemma Join_Split s sep : Join (Split s sep) sep = s.
Proof.
  induction s as [|r s IH]; [reflexivity|].
  pose proof (Split_nonempty s sep) as Hne.
  cbn [Split]. destruct (r =? sep)%N eqn:Hr.
  - apply N.eqb_eq in Hr. subst r.
    rewrite (Join_cons_nil _ _ Hne). f_equal. exact IH.
  - destruct (Split s sep) as [|p rest]; [congruence|].
    rewrite Join_cons_rune. f_equal. exact IH.
Qed.

Lemma trimLeft_suffix f s : exists pre, s = pre ++ trimLeft f s.
Proof.
  induction s as [|r s [pre IH]]; simpl.
  - exists []. reflexivity.
  - destruct (f r).
    + exists (r :: pre). simpl. rewrite <- IH. reflexivity.
    + exists []. reflexivity.
Qed.

Lemma trimLeft_head f s : f (hd 0%N (trimLeft f s)) = true -> trimLeft f s = [].
Proof.
  induction s as [|r s IH]; simpl; [reflexivity|].
  destruct (f r) eqn:Hf; [exact IH|]. simpl. congruence.
Qed.

Lemma trimRight_prefix f s : exists suf, s = trimRight f s ++ suf.
Proof.
  unfold trimRight. destruct (trimLeft_suffix f (rev s)) as [pre H].
  exists (rev pre). rewrite <- rev_app_distr, <- H. symmetry. apply rev_involutive.
Qed.

Lemma last_rev_hd (l : gostring) : last (rev l) 0%N = hd 0%N l.
Proof.
  destruct l as [|a l]; [reflexivity|]. simpl. apply last_last.
Qed.

Lemma trimRight_last f s : f (last (trimRight f s) 0%N) = true -> trimRight f s = [].
Proof.
  unfold trimRight. rewrite last_rev_hd. intros H.
  rewrite (trimLeft_head f (rev s) H). reflexivity.
Qed.

Lemma TrimSpace_sub s x : In x (TrimSpace s) -> In x s.
Proof.
  unfold TrimSpace. intros H.
  destruct (trimRight_prefix IsSpace (trimLeft IsSpace s)) as [suf Hs].
  destruct (trimLeft_suffix IsSpace s) as [pre Hp].
  rewrite Hp. apply in_or_app. right. rewrite Hs. apply in_or_app. left. exact H.
Qed.

Lemma TrimSpace_ends s :
  TrimSpace s <> [] ->
  IsSpace (hd 0%N (TrimSpace s)) = false /\ IsSpace (last (TrimSpace s) 0%N) = false.
Proof.
  intros Hne. split.
  - unfold TrimSpace in *.
    destruct (trimRight_prefix IsSpace (trimLeft IsSpace s)) as [suf Hs].
    destruct (trimRight IsSpace (trimLeft IsSpace s)) as [|r t] eqn:Ht; [congruence|].
    simpl.
    destruct (IsSpace r) eqn:Hr; [|reflexivity]. exfalso.
    assert (Hhd : hd 0%N (trimLeft IsSpace s) = r) by (rewrite Hs; reflexivity).
    pose proof (trimLeft_head IsSpace s) as Hl. rewrite Hhd in Hl.
    rewrite (Hl Hr) in Hs. discriminate.
  - destruct (IsSpace (last (TrimSpace s) 0%N)) eqn:Hl; [|reflexivity].
    exfalso. apply Hne. unfold TrimSpace in *. apply trimRight_last. exact Hl.
Qed.

(** TrimSpace leaves a trimmed string alone. *)
Lemma trimLeft_id f s : f (hd 0%N s) = false -> trimLeft f s = s.
Proof. destruct s as [|r s]; simpl; [reflexivity|]. intros ->. reflexivity. Qed.

Lemma isEmpty_nil (s : gostring) : isEmpty s = true <-> s = [].
Proof. destruct s; simpl; split; congruence. Qed.

Lemma In_ignoreEntries p paths :
  In p (ignoreEntries paths) <->
  p <> [] /\ exists piece, In piece paths /\ p = TrimSpace piece.
Proof.
  unfold ignoreEntries. rewrite filter_In, in_map_iff, negb_true_iff. split.
  - intros [(piece & Hp & Hin) Hne]. split.
    + intros ->. discriminate.
    + exists piece. auto.
  - intros [Hne (piece & Hin & Hp)]. split.
    + exists piece. auto.
    + destruct p; [congruence | reflexivity].
Qed.

Lemma ignore_call_entry env flags args res acts p r :
  SetupTrace env flags args res acts ->
  In (CallIgnore p r) acts ->
  In p (ignoreEntries (Split (ignore flags) comma)).
Proof.
  intros H Hin.
  assert (Hp : In (p, r) (pick ignoreCall acts))
    by (eapply In_pick; [exact Hin | reflexivity]).
  destruct (setup_pick_ignore H)
    as [[Hnil _]|[(pre & q & post & e0 & Hsplit & Hpick & _)|Hall]].
  - rewrite Hnil in Hp. contradiction.
  - rewrite Hpick in Hp. rewrite Hsplit.
    apply in_app_or in Hp. destruct Hp as [Hp|[Hp|[]]].
    + apply in_map_iff in Hp. destruct Hp as (x & Hx & Hin'). inversion Hx. subst.
      apply in_or_app. left. exact Hin'.
    + inversion Hp. subst. apply in_or_app. right. left. reflexivity.
  - rewrite Hall in Hp. apply in_map_iff in Hp.
    destruct Hp as (x & Hx & Hin'). inversion Hx. subst. exact Hin'.
Qed.

(** X2. Every path [main] hands to [w.Ignore] is a trimmed piece of the
    -ignore value between two commas: it is not empty, holds no comma and
    neither starts nor ends with white space. *)
Theorem ignore_paths_trimmed impl env flags args p r :
  In (CallIgnore p r) (done_actions (snd (runMain impl env flags args))) ->
  trimmedEntry p /\
  exists piece, In piece (Split (ignore flags) comma) /\ p = TrimSpace piece.
Proof.
  intros Hin.
  pose proof (ignore_call_entry _ _ _ _ _ _ _ (runMain_trace impl env flags args) Hin)
    as He.
  apply In_ignoreEntries in He. destruct He as [Hne (piece & Hpiece & Hp)].
  split; [|exists piece; auto].
  unfold trimmedEntry. split; [exact Hne|]. split.
  - intros Hc. rewrite Hp in Hc. apply TrimSpace_sub in Hc.
    exact (Split_no_sep _ _ _ Hpiece Hc).
  - rewrite Hp in *. apply TrimSpace_ends. exact Hne.
Qed.

Lemma ignore_paths_trimmed_witness :
  trimmedEntry (lit "vendor dir").
Proof.
  refine (proj1 (ignore_paths_trimmed demoImpl demoEnv
                   (withIgnore " vendor dir ,  ,.git" defaultFlags) []
                   (lit "vendor dir") None _)).
  vm_compute. do 2 right. left. reflexivity.
Defined.

(** ** The order of the set-up *)

Lemma nondecreasing_app l1 l2 :
  nondecreasing l1 = true -> nondecreasing l2 = true ->
  (forall x y, In x l1 -> In y l2 -> x <= y) ->
  nondecreasing (l1 ++ l2) = true.
Proof.
  induction l1 as [|a l1 IH]; simpl; intros H1 H2 Hle; [exact H2|].
  apply andb_prop in H1. destruct H1 as [Ha H1].
  apply andb_true_intro. split.
  - rewrite forallb_app, Ha. simpl. apply forallb_forall.
    intros y Hy. apply Nat.leb_le. apply Hle; auto.
  - apply IH; auto.
Qed.

Lemma nondecreasing_split pre a mid b post :
  nondecreasing (pre ++ a :: mid ++ b :: post) = true -> a <= b.
Proof.
  induction pre as [|x pre IH]; simpl; intros H.
  - apply andb_prop in H. destruct H as [H _].
    rewrite forallb_app in H. apply andb_prop in H. destruct H as [_ H].
    simpl in H. apply andb_prop in H. destruct H as [H _].
    apply Nat.leb_le. exact H.
  - apply andb_prop in H. destruct H as [_ H]. apply IH. exact H.
Qed.

Lemma Within_app a b c d l1 l2 :
  Within a b l1 -> Within c d l2 -> a <= b -> b <= c -> c <= d ->
  Within a d (l1 ++ l2).
Proof.
  intros [S1 F1] [S2 F2] Hab Hbc Hcd. split.
  - apply nondecreasing_app; auto. intros x y Hx Hy.
    rewrite Forall_forall in F1, F2.
    specialize (F1 x Hx). specialize (F2 y Hy). lia.
  - apply Forall_app. split.
    + eapply Forall_impl; [|exact F1]. simpl. intros; lia.
    + eapply Forall_impl; [|exact F2]. simpl. intros; lia.
Qed.

Lemma Within_const k (l : list Action) :
  Forall (fun a => phase a = k) l -> Within k k (map phase l).
Proof.
  induction 1 as [|a l Ha _ [IS IF]]; simpl.
  - split; [reflexivity | constructor].
  - split.
    + simpl. rewrite IS, andb_true_r. apply forallb_forall.
      intros y Hy. rewrite Forall_forall in IF. specialize (IF y Hy).
      apply Nat.leb_le. lia.
    + constructor; [lia | exact IF].
Qed.

Lemma Within_widen a b a' b' l :
  Within a b l -> a' <= a -> b <= b' -> Within a' b' l.
Proof.
  intros [S F] Ha Hb. split; [exact S|].
  eapply Forall_impl; [|exact F]. simpl. intros; lia.
Qed.

Lemma Within_calls mk paths oe new k :
  (forall p r, phase (mk p r) = k) -> k <= 10 ->
  CallSeg mk paths oe new ->
  Within k (match oe with None => k | Some _ => 10 end) (map phase new).
Proof.
  intros Hmk Hk H. destruct H as [|pre p post e _].
  - apply Within_const. apply Forall_forall. intros a Ha.
    apply in_map_iff in Ha. destruct Ha as (q & <- & _). apply Hmk.
  - rewrite map_app.
    apply Within_app with (b := k) (c := k); try lia.
    + apply Within_const. apply Forall_forall. intros a Ha.
      apply in_map_iff in Ha. destruct Ha as (q & <- & _). apply Hmk.
    + simpl. rewrite Hmk. split.
      * simpl. rewrite andb_true_r, andb_true_r. apply Nat.leb_le. exact Hk.
      * constructor; [lia | constructor; [lia | constructor]].
Qed.

Lemma phase_registerAction flags p r : phase (registerAction flags p r) = 4.
Proof. destruct (registerAction_cases flags) as [[_ ->]|[_ ->]]; reflexivity. Qed.

Lemma Within_prints rep :
  forallb isPrint rep = true -> Within 5 5 (map phase rep).
Proof.
  intros H. apply Within_const. apply Forall_forall. intros a Ha.
  pose proof (In_prints _ _ H Ha) as Hp.
  destruct a; simpl in Hp; try discriminate; reflexivity.
Qed.

Lemma Within_concrete l lo hi :
  nondecreasing l = true ->
  forallb (fun x => Nat.leb lo x && Nat.leb x hi) l = true ->
  Within lo hi l.
Proof.
  intros S F. split; [exact S|]. apply Forall_forall. intros x Hx.
  rewrite forallb_forall in F. specialize (F x Hx).
  apply andb_prop in F. destruct F as [F1 F2].
  apply Nat.leb_le in F1. apply Nat.leb_le in F2. lia.
Qed.

Lemma setup_stages env flags args res acts :
  SetupTrace env flags args res acts -> Within 0 10 (map phase acts).
Proof.
  intros H.
  assert (Hpre : Within 0 1 (map phase (prelude flags)))
    by (apply Within_concrete; reflexivity).
  destruct H as [e|files|files cap e igs _ _ Higs
                 |files cap e igs adds _ _ Higs Hadds
                 |files cap e igs adds rep _ _ Higs Hadds Hrep _
                 |files cap d igs adds rep _ _ Higs Hadds Hrep _].
  - apply Within_concrete; reflexivity.
  - apply Within_concrete; reflexivity.
  - rewrite map_app.
    apply Within_app with (b := 1) (c := 2); try lia; [exact Hpre|].
    apply (Within_calls CallIgnore _ _ _ 2 (fun _ _ => eq_refl)) in Higs; [|lia].
    exact Higs.
  - rewrite !map_app.
    apply (Within_calls CallIgnore _ _ _ 2 (fun _ _ => eq_refl)) in Higs; [|lia].
    apply (Within_calls _ _ _ _ 4 (phase_registerAction flags)) in Hadds; [|lia].
    apply Within_app with (b := 1) (c := 2); try lia; [exact Hpre|].
    apply Within_app with (b := 2) (c := 3); try lia; [exact Higs|].
    apply Within_app with (b := 3) (c := 4); try lia; [|exact Hadds].
    apply Within_concrete; reflexivity.
  - rewrite !map_app.
    apply (Within_calls CallIgnore _ _ _ 2 (fun _ _ => eq_refl)) in Higs; [|lia].
    apply (Within_calls _ _ _ _ 4 (phase_registerAction flags)) in Hadds; [|lia].
    apply Within_app with (b := 1) (c := 2); try lia; [exact Hpre|].
    apply Within_app with (b := 2) (c := 3); try lia; [exact Higs|].
    apply Within_app with (b := 3) (c := 4); try lia;
      [apply Within_concrete; reflexivity|].
    apply Within_app with (b := 4) (c := 5); try lia; [exact Hadds|].
    apply Within_app with (b := 5) (c := 10); try lia;
      [apply Within_prints; exact Hrep | apply Within_concrete; reflexivity].
  - rewrite !map_app.
    apply (Within_calls CallIgnore _ _ _ 2 (fun _ _ => eq_refl)) in Higs; [|lia].
    apply (Within_calls _ _ _ _ 4 (phase_registerAction flags)) in Hadds; [|lia].
    apply Within_app with (b := 1) (c := 2); try lia; [exact Hpre|].
    apply Within_app with (b := 2) (c := 3); try lia; [exact Higs|].
    apply Within_app with (b := 3) (c := 4); try lia;
      [apply Within_concrete; reflexivity|].
    apply Within_app with (b := 4) (c := 5); try lia; [exact Hadds|].
    apply Within_app with (b := 5) (c := 6); try lia;
      [apply Within_prints; exact Hrep|].
    apply Within_widen with (a := 6) (b := 9); try lia.
    apply Within_concrete; reflexivity.
Qed.

(** X3. [main] goes through its set-up in one order and never steps
    back: of two actions it makes before or at the call of Start, the
    later one belongs to the same or a later stage. So every Ignore call
    comes before the reader is started, the reader is started before any
    root is registered, and Start comes after every registration; a fatal
    log is the last action; nothing a goroutine does is part of the
    set-up. *)
Theorem setup_in_stage_order impl env flags args pre a mid b post :
  done_actions (snd (runMain impl env flags args)) = pre ++ a :: mid ++ b :: post ->
  phase a <= phase b /\ phase b <= 10.
Proof.
  intros Hacts.
  pose proof (setup_stages _ _ _ _ _ (runMain_trace impl env flags args)) as [S F].
  rewrite Hacts in S, F. split.
  - rewrite map_app in S. simpl in S. rewrite map_app in S. simpl in S.
    apply (nondecreasing_split _ _ _ _ _ S).
  - rewrite Forall_forall in F. apply (F (phase b)).
    apply in_map. apply in_or_app. right. right. apply in_or_app. right.
    left. reflexivity.
Qed.

Lemma setup_in_stage_order_witness :
  phase (CallIgnore (lit "a") None) <= phase (CallAddRecursive (lit "/work") None).
Proof.
  refine (proj1 (setup_in_stage_order demoImpl demoEnv (withIgnore "a" defaultFlags) []
                   [CallNew; CallIgnoreHiddenFiles false]
                   (CallIgnore (lit "a") None)
                   [GoStmt GReader]
                   (CallAddRecursive (lit "/work") None)
                   [PrintWatching 1; SignalNotify [Kill; Interrupt]; GoStmt GSignal;
                    GoStmt GStartup; CallStart 100000000] _)).
  reflexivity.
Defined.

(** ** The call of Start *)

Ltac not_in_segment Hin :=
  first
    [ solve [simpl in Hin; intuition discriminate]
    | solve [match goal with
             | Hs : CallSeg CallIgnore _ _ ?l |- _ =>
                 match type of Hin with In _ l => idtac end;
                 destruct (@CallSeg_In _ _ _ _ _ Hs Hin) as [[? Heq]|(? & ? & _ & [Heq|Heq])];
                 discriminate Heq
             end]
    | solve [match goal with
             | Hs : CallSeg (registerAction ?flags) _ _ ?l |- _ =>
                 match type of Hin with In _ l => idtac end;
                 destruct (@CallSeg_In _ _ _ _ _ Hs Hin) as [[? Heq]|(? & ? & _ & [Heq|Heq])];
                 try discriminate Heq;
                 destruct (registerAction_cases flags) as [[_ Hra]|[_ Hra]];
                 rewrite Hra in Heq; discriminate Heq
             end]
    | solve [match goal with
             | Hp : forallb isPrint ?l = true |- _ =>
                 match type of Hin with In _ l => idtac end;
                 pose proof (In_prints _ _ Hp Hin) as Hbad; discriminate Hbad
             end] ].

Ltac split_in Hin :=
  repeat (apply in_app_or in Hin; destruct Hin as [Hin|Hin]).



(** ** Panics *)

Lemma step_proc impl flags cap l s s' :
  step impl flags cap l s = Some s' ->
  proc s' = Running \/ proc s' = Exited \/ exists e, proc s' = Died (Fatal e).
Proof.
  intros Hstep. pose proof (step_running _ _ _ _ _ Hstep) as Hrun0.
  step_cases Hstep; try reader_fields; try startup_fields;
    try (inversion Hstep; subst s'); simpl; eauto;
    simpl in F; destruct F as (_ & _ & _ & _ & _ & _ & _ & _ & F);
    try (destruct F as [F|[e F]]); rewrite F; eauto.
Qed.

(** X5. The program panics in one situation only: before anything else
    is done, on a -cmd value that is not empty but all white space. No
    goroutine ever panics, and at that panic no watcher exists yet and
    nothing has been printed or logged. *)
Theorem panic_only_on_blank_cmd impl env flags args ls s :
  run impl env flags args ls = Some s ->
  proc s = Died Panic ->
  ls = [] /\ trace s = [] /\
  cmd flags <> [] /\ forallb IsSpace (cmd flags) = true.
Proof.
  intros Hrun Hp.
  assert (Hls : ls = []).
  { destruct ls as [|l ls] using rev_ind; [reflexivity|]. exfalso.
    unfold run in Hrun. apply exec_snoc in Hrun.
    destruct Hrun as (s1 & _ & Hstep).
    destruct (step_proc _ _ _ _ _ _ Hstep) as [H|[H|[e H]]]; congruence. }
  subst ls. split; [reflexivity|].
  unfold run in Hrun. simpl in Hrun. inversion Hrun. subst s. clear Hrun.
  destruct (boot_init impl env flags args) as (_ & _ & _ & _ & Htr & _).
  pose proof (runMain_trace impl env flags args) as H.
  assert (Hres : fst (runMain impl env flags args) = inl Panic).
  { unfold boot in Hp. destruct (runMain impl env flags args) as [[h|cap] st];
      simpl in *; congruence. }
  rewrite Hres in H. rewrite Htr.
  inversion H as [|files Hf Hne Hsplit Hh Hacts| | | |].
  split; [reflexivity|]. split; [exact Hne|].
  apply FieldsFunc_nil. exact Hsplit.
Qed.

Lemma panic_only_on_blank_cmd_witness :
  trace (boot demoImpl demoEnv (withCmd "  " defaultFlags) []) = [].
Proof.
  refine (proj1 (proj2 (panic_only_on_blank_cmd demoImpl demoEnv
                          (withCmd "  " defaultFlags) [] [] _ eq_refl eq_refl))).
Defined.

(** ** Which command errors the program survives *)

(** X6. When the reader runs the command for an event, the process stays
    alive exactly if Run returned no error, or -keepalive is set and the
    process state is nil or not a success. In particular -keepalive does
    not cover an error that Run reports although the process state says
    success: that one is fatal. Whenever the step is fatal, it is with
    the error Run returned. *)
Theorem reader_survives_iff impl flags cap s event r s' :
  step impl flags cap (ReadEvent event r) s = Some s' ->
  cmd flags <> [] ->
  (proc s' = Running <->
     run_err r = None \/
     (keepalive flags = true /\
      forall ps, run_state r = Some ps -> Success ps = false)) /\
  (forall err ps, run_err r = Some err -> run_state r = Some ps ->
     Success ps = true -> proc s' = Died (Fatal err)) /\
  (proc s' <> Running -> exists err, run_err r = Some err /\ proc s' = Died (Fatal err)).
Proof.
  intros Hstep Hcmd.
  pose proof (@event_step_trace _ _ _ _ _ _ _ Hstep Hcmd) as H. cbv zeta in H.
  destruct (run_err r) as [err|].
  - destruct (run_state r) as [ps|]; [destruct (Success ps) eqn:Hs|];
      destruct (keepalive flags); simpl in H; destruct H as [Hp _];
      rewrite Hp; (split; [split|split]);
      try (intros; discriminate); try (intros; congruence); eauto;
      try (intros [Hc|[Hk Hall]]; try discriminate;
           try (specialize (Hall ps eq_refl); congruence));
      try (intros _; right; split; [reflexivity|]; intros ps' Hps; congruence).
  - destruct H as [Hp _]. rewrite Hp. split; [split; auto|].
    split; [intros; discriminate | congruence].
Qed.

Lemma reader_survives_iff_witness :
  exists s',
    step demoImpl (withKeepalive true (withCmd "make" defaultFlags))
      (captured demoImpl demoEnv (withKeepalive true (withCmd "make" defaultFlags)) [])
      (ReadEvent demoEvent
         {| run_err := Some exitStatus1; run_state := Some {| ExitCode := 0 |} |})
      (boot demoImpl demoEnv (withKeepalive true (withCmd "make" defaultFlags)) [])
    = Some s'
    /\ proc s' = Died (Fatal exitStatus1).
Proof.
  destruct (step demoImpl (withKeepalive true (withCmd "make" defaultFlags))
      (captured demoImpl demoEnv (withKeepalive true (withCmd "make" defaultFlags)) [])
      (ReadEvent demoEvent
         {| run_err := Some exitStatus1; run_state := Some {| ExitCode := 0 |} |})
      (boot demoImpl demoEnv (withKeepalive true (withCmd "make" defaultFlags)) []))
    as [s'|] eqn:Hstep; [|vm_compute in Hstep; discriminate Hstep].
  exists s'. split; [reflexivity|].
  assert (Hcmd : cmd (withKeepalive true (withCmd "make" defaultFlags)) <> [])
    by discriminate.
  destruct (reader_survives_iff _ _ _ _ _ _ _ Hstep Hcmd) as (_ & H & _).
  apply (H exitStatus1 {| ExitCode := 0 |}); reflexivity.
Defined.

(** X7. The start-up goroutine treats a failing command like the reader
    does: with both -cmd and -startcmd set the process stays alive
    exactly if Run returned no error, or -keepalive is set and the
    process state is nil or not a success; otherwise it ends with
    log.Fatalln of that error. With a flag unset the goroutine returns at
    once. Alive, the goroutine has returned. *)
Theorem startup_survives_iff impl flags cap s r s' :
  step impl flags cap (StartupRun r) s = Some s' ->
  (proc s' = Running <->
     cmd flags = [] \/ startcmd flags = false \/ run_err r = None \/
     (keepalive flags = true /\
      forall ps, run_state r = Some ps -> Success ps = false)) /\
  (proc s' = Running -> startupPc s' = UReturned) /\
  (proc s' <> Running ->
     exists err, run_err r = Some err /\ proc s' = Died (Fatal err) /\
       exists pre, trace s' = trace s ++ pre ++ [(GStartup, LogFatalln err)]).
Proof.
  intros Hstep. pose proof (step_guard _ _ _ _ _ Hstep) as [Hrun Hg].
  simpl in Hg. unfold step in Hstep. rewrite Hrun, Hg in Hstep. simpl in Hstep.
  unfold startupBody, runAndCheck in Hstep.
  destruct (cmd flags) as [|c rest] eqn:Hcmd; simpl in Hstep.
  { inversion Hstep. subst s'. simpl. rewrite Hrun.
    split; [split; auto|]. split; [auto | congruence]. }
  destruct (startcmd flags) eqn:Hsc; simpl in Hstep.
  2:{ inversion Hstep. subst s'. simpl. rewrite Hrun.
      split; [split; auto|]. split; [auto | congruence]. }
  destruct (run_err r) as [err|].
  - destruct (run_state r) as [ps|]; [destruct (Success ps) eqn:Hs|];
      destruct (keepalive flags); simpl in Hstep; inversion Hstep; subst s';
      simpl; try rewrite Hrun;
      (split; [split|split]);
      try (intros; discriminate); try (intros; congruence); eauto;
      try (intros [Hc|[Hc|[Hc|[Hk Hall]]]]; try discriminate;
           try (specialize (Hall ps eq_refl); congruence));
      try (intros _; right; right; right; split; [reflexivity|];
           intros ps' Hps; congruence);
      try (intros _; exists err; split; [reflexivity|]; split; [reflexivity|];
           eexists [_]; reflexivity).
  - inversion Hstep. subst s'. simpl. rewrite Hrun.
    split; [split; auto|]. split; [auto | congruence].
Qed.

Lemma startup_survives_iff_witness :
  exists s',
    step demoImpl startcmdFlags (captured demoImpl demoEnv startcmdFlags [])
      (StartupRun ranExit1) (boot demoImpl demoEnv startcmdFlags [])
    = Some s'
    /\ proc s' = Died (Fatal exitStatus1).
Proof.
  destruct (step demoImpl startcmdFlags (captured demoImpl demoEnv startcmdFlags [])
              (StartupRun ranExit1) (boot demoImpl demoEnv startcmdFlags []))
    as [s'|] eqn:Hstep; [|vm_compute in Hstep; discriminate Hstep].
  exists s'. split; [reflexivity|].
  destruct (startup_survives_iff _ _ _ _ _ _ Hstep) as (Hiff & _ & Hdead).
  assert (Hnot : proc s' <> Running).
  { intros Hr. apply Hiff in Hr.
    destruct Hr as [Hr|[Hr|[Hr|[Hr _]]]]; discriminate Hr. }
  destruct (Hdead Hnot) as (err & Herr & Hp & _).
  inversion Herr. subst err. exact Hp.
Defined.

(** ** What a step adds to the trace *)

Lemma step_acts impl flags cap l s s' :
  step impl flags cap l s = Some s' ->
  exists acts,
    trace s' = trace s ++ map (pair (actor l)) acts /\
    StepActs impl flags cap l (proc s') acts.
Proof.
  intros Hstep. pose proof (step_running _ _ _ _ _ Hstep) as Hrun0.
  step_cases Hstep.
  - inversion Hstep. subst s'. clear Hstep.
    unfold reads, readerBody, runAndCheck.
    destruct (cmd flags) as [|c rest] eqn:Hcmd; simpl negb; cbv iota.
    + eexists. simpl. rewrite Hrun0.
      split; [|apply ActsEventOnly; exact Hcmd]. reflexivity.
    + assert (Hne : cmd flags <> []) by (rewrite Hcmd; discriminate).
      destruct (run_err r) as [err|] eqn:Herr.
      * destruct ((match run_state r with
                   | Some ps => negb (Success ps)
                   | None => true
                   end) && keepalive flags);
          eexists; simpl; try rewrite Hrun0.
        -- split; [|apply ActsEventLogged; eassumption]. reflexivity.
        -- split; [|apply ActsEventFatal; eassumption]. reflexivity.
      * eexists. simpl. rewrite Hrun0.
        split; [|apply ActsEventRun; assumption]. reflexivity.
  - inversion Hstep. subst s'. clear Hstep. unfold reads, readerBody.
    destruct err as [|msg]; simpl; eexists; try rewrite Hrun0.
    + split; [|apply ActsErrorPrinted]. reflexivity.
    + split; [|apply ActsErrorFatal; discriminate]. reflexivity.
  - inversion Hstep. subst s'. exists []. simpl. rewrite Hrun0, app_nil_r.
    split; [reflexivity | apply ActsClosed].
  - inversion Hstep. subst s'. exists []. simpl. rewrite Hrun0, app_nil_r.
    split; [reflexivity | apply ActsSigRecv].
  - inversion Hstep. subst s'. exists [CallClose]. simpl. rewrite Hrun0.
    split; [reflexivity | apply ActsSigClose].
  - inversion Hstep. subst s'. exists [PrintWatcherClosed]. simpl. rewrite Hrun0.
    split; [reflexivity | apply ActsSigDone].
  - unfold startupBody, runAndCheck in Hstep.
    destruct (cmd flags) as [|c rest] eqn:Hcmd; simpl in Hstep.
    { inversion Hstep. subst s'. exists []. simpl. rewrite Hrun0, app_nil_r.
      split; [reflexivity | apply ActsStartupNone; auto]. }
    assert (Hne : cmd flags <> []) by (rewrite Hcmd; discriminate).
    destruct (startcmd flags) eqn:Hsc; simpl in Hstep.
    2:{ inversion Hstep. subst s'. exists []. simpl. rewrite Hrun0, app_nil_r.
        split; [reflexivity | apply ActsStartupNone; auto]. }
    destruct (run_err r) as [err|] eqn:Herr.
    + destruct ((match run_state r with
                 | Some ps => negb (Success ps)
                 | None => true
                 end) && keepalive flags);
        inversion Hstep; subst s'; eexists; simpl; try rewrite Hrun0.
      * split; [|apply ActsStartupLogged; eassumption]. reflexivity.
      * split; [|apply ActsStartupFatal; eassumption]. reflexivity.
    + inversion Hstep. subst s'. eexists. simpl. rewrite Hrun0.
      split; [|apply ActsStartupRun; assumption]. reflexivity.
  - inversion Hstep. subst s'. exists []. simpl. rewrite Hrun0, app_nil_r.
    split; [reflexivity | apply ActsWatcherCloses].
  - inversion Hstep. subst s'. exists [LogFatalln err]. simpl.
    split; [reflexivity | apply ActsStartFatal].
  - inversion Hstep. subst s'. exists []. simpl. rewrite Hrun0, app_nil_r.
    split; [reflexivity | apply ActsStartNil].
  - inversion Hstep. subst s'. exists []. simpl. rewrite app_nil_r.
    split; [reflexivity | apply ActsMainReturns].
Qed.

(** ** What the goroutines do, over whole schedules *)

Lemma actionsOf_app g a b : actionsOf g (a ++ b) = actionsOf g a ++ actionsOf g b.
Proof. unfold actionsOf. rewrite filter_app, map_app. reflexivity. Qed.

Lemma actionsOf_pair g g' acts :
  actionsOf g (map (pair g') acts) = if goroutine_eqb g' g then acts else [].
Proof.
  unfold actionsOf. induction acts as [|a acts IH]; simpl.
  - destruct (goroutine_eqb g' g); reflexivity.
  - destruct (goroutine_eqb g' g); simpl; [rewrite IH|exact IH]; reflexivity.
Qed.

Lemma setup_no_runtime_action env flags args res acts a :
  SetupTrace env flags args res acts -> In a acts -> phase a <= 10.
Proof.
  intros H Ha. destruct (setup_stages _ _ _ _ _ H) as [_ F].
  rewrite Forall_forall in F. apply (F (phase a)). apply in_map. exact Ha.
Qed.

Lemma boot_trace_stages impl env flags args g a :
  In (g, a) (trace (boot impl env flags args)) -> g = GMain /\ phase a <= 10.
Proof.
  destruct (boot_init impl env flags args) as (_ & _ & _ & _ & Htr & _).
  rewrite Htr. intros Hin. apply in_map_iff in Hin.
  destruct Hin as (a' & Heq & Hin). inversion Heq. subst. split; [reflexivity|].
  eapply setup_no_runtime_action; [apply (runMain_trace impl env flags args)|exact Hin].
Qed.

(** X8. After the set-up each goroutine keeps to its own work: the reader
    prints, runs the command and logs; the start-up goroutine runs the
    command on os.Stdin and logs; the handler calls Close and prints
    "watcher closed"; main only logs a fatal error. So no root is added,
    nothing is ignored and Start is not called again once the program
    runs, and Close is called by the handler alone. *)
Theorem goroutines_keep_to_their_work impl env flags args ls s :
  run impl env flags args ls = Some s ->
  exists later,
    trace s = trace (boot impl env flags args) ++ later /\
    forallb allowedPair later = true.
Proof.
  unfold run. revert s. induction ls as [|l ls IH] using rev_ind; intros s H.
  - simpl in H. inversion H. subst s. exists []. rewrite app_nil_r. auto.
  - apply exec_snoc in H. destruct H as (s1 & H1 & Hstep).
    destruct (IH s1 H1) as (later & Htr & Hall).
    destruct (step_acts _ _ _ _ _ _ Hstep) as (acts & Hacts & Hsa).
    exists (later ++ map (pair (actor l)) acts). split.
    + rewrite Hacts, Htr, app_assoc. reflexivity.
    + rewrite forallb_app, Hall. simpl.
      inversion Hsa; subst; reflexivity.
Qed.

Lemma goroutines_keep_to_their_work_witness :
  exists later,
    option_map trace (run demoImpl demoEnv startcmdFlags [] eventFirst)
      = Some (trace (boot demoImpl demoEnv startcmdFlags []) ++ later)
    /\ forallb allowedPair later = true.
Proof.
  destruct (run demoImpl demoEnv startcmdFlags [] eventFirst)
    as [s|] eqn:Hrun; [|vm_compute in Hrun; discriminate Hrun].
  destruct (goroutines_keep_to_their_work demoImpl demoEnv startcmdFlags []
              eventFirst s Hrun) as (later & Htr & Hall).
  exists later. simpl. rewrite Htr. auto.
Defined.

(** X9. The handler's part of the trace is fixed by where it stands:
    nothing before Close, then Close, then "watcher closed". So Close is
    called at most once, and "watcher closed" is printed at most once,
    after Close and only when the reader has returned. *)
Theorem handler_trace impl env flags args ls s :
  run impl env flags args ls = Some s ->
  actionsOf GSignal (trace s) = handlerDid (signalPc s) /\
  (In PrintWatcherClosed (actionsOf GSignal (trace s)) -> readerPc s = RReturned).
Proof.
  intros Hrun.
  assert (Hd : actionsOf GSignal (trace s) = handlerDid (signalPc s)).
  { revert s Hrun. unfold run.
    induction ls as [|l ls IH] using rev_ind; intros s H.
    - simpl in H. inversion H. subst s.
      destruct (boot_init impl env flags args) as (_ & _ & Hs & _ & Htr & _).
      rewrite Htr, actionsOf_pair. simpl. destruct Hs as [-> | ->]; reflexivity.
    - apply exec_snoc in H. destruct H as (s1 & H1 & Hstep).
      specialize (IH s1 H1).
      destruct (step_acts _ _ _ _ _ _ Hstep) as (acts & Hacts & Hsa).
      pose proof (step_guard _ _ _ _ _ Hstep) as [_ Hg].
      rewrite Hacts, actionsOf_app, actionsOf_pair, IH.
      rewrite (step_signalPc _ _ _ _ _ Hstep).
      inversion Hsa; subst; simpl in *; try apply app_nil_r;
        try (rewrite Hg; reflexivity);
        destruct Hg as [Hg _]; rewrite Hg; reflexivity. }
  split; [exact Hd|].
  intros Hin. rewrite Hd in Hin.
  pose proof (run_Inv _ _ _ _ _ Hrun) as (Hdone & _ & _ & _ & _ & Hsr & _).
  apply Hdone, Hsr.
  destruct (signalPc s); simpl in Hin; intuition (try discriminate).
Qed.

Lemma handler_trace_witness :
  option_map (fun s => actionsOf GSignal (trace s))
    (run demoImpl demoEnv defaultFlags [] cleanShutdown)
  = Some [CallClose; PrintWatcherClosed].
Proof.
  destruct (run demoImpl demoEnv defaultFlags [] cleanShutdown)
    as [s|] eqn:Hrun; [|vm_compute in Hrun; discriminate Hrun].
  simpl.
  rewrite (proj1 (handler_trace demoImpl demoEnv defaultFlags [] cleanShutdown s Hrun)).
  vm_compute in Hrun. inversion Hrun. reflexivity.
Defined.



(** X11. Whatever the schedule, a command the program runs is the one
    the -cmd value names: the value is not empty, the program name is its
    first field, not empty and free of white space, the arguments are the
    other fields, and the run is made by the reader or, on os.Stdin and
    with -startcmd set, by the start-up goroutine. Without -cmd nothing
    is ever run. *)
Theorem runs_are_of_the_command impl env flags args ls s g name cargs stdin r :
  run impl env flags args ls = Some s ->
  In (g, ExecRun name cargs stdin r) (trace s) ->
  cmd flags <> [] /\
  name :: cargs = FieldsFunc (cmd flags) IsSpace /\
  isField IsSpace name = true /\
  (g = GReader \/ (g = GStartup /\ stdin = OsStdin /\ startcmd flags = true)).
Proof.
  intros Hrun Hin.
  assert (Hcore : cmd flags <> [] /\
                  name = cmdName (captured impl env flags args) /\
                  cargs = cmdArgs (captured impl env flags args) /\
                  (g = GReader \/ (g = GStartup /\ stdin = OsStdin /\ startcmd flags = true)) /\
                  ls <> []).
  { revert s Hrun Hin. unfold run.
    induction ls as [|l ls IH] using rev_ind; intros s H Hin.
    - simpl in H. inversion H. subst s. exfalso.
      destruct (boot_trace_stages _ _ _ _ _ _ Hin) as [_ Hph]. simpl in Hph. lia.
    - apply exec_snoc in H. destruct H as (s1 & H1 & Hstep).
      destruct (step_acts _ _ _ _ _ _ Hstep) as (acts & Hacts & Hsa).
      assert (Hnil : ls ++ [l] <> []) by (destruct ls; discriminate).
      rewrite Hacts in Hin. apply in_app_or in Hin. destruct Hin as [Hin|Hin].
      + destruct (IH s1 H1 Hin) as (A & B & C & D & _). auto.
      + inversion Hsa; subst; simpl in Hin;
          repeat (destruct Hin as [Hin|Hin]; [|]); try contradiction;
          try discriminate Hin; inversion Hin; subst; auto 8. }
  destruct Hcore as (Hcmd & Hname & Hargs & Hg & Hls).
  assert (Hboot : proc (boot impl env flags args) = Running)
    by (apply (@run_running _ _ _ _ _ _ Hrun); right; exact Hls).
  pose proof (@captured_parsed _ _ _ _ Hboot) as Hcap.
  set (cap := captured impl env flags args) in *. clearbody cap.
  destruct Hcap as [Hnil|name0 rest _ Hsplit]; [congruence|].
  simpl in Hname, Hargs. subst name cargs.
  split; [exact Hcmd|]. split; [symmetry; exact Hsplit|]. split; [|exact Hg].
  pose proof (fieldsLoop_fields IsSpace (cmd flags) None [] eq_refl) as Hf.
  fold (FieldsFunc (cmd flags) IsSpace) in Hf. rewrite Hsplit in Hf. simpl in Hf.
  assert (Hf' : isField IsSpace name0 && forallb (isField IsSpace) rest = true)
    by (apply Hf; intros fld H; discriminate H).
  apply andb_prop in Hf'. tauto.
Qed.

Lemma runs_are_of_the_command_witness :
  lit "make" :: [lit "all"] = FieldsFunc (cmd startcmdFlags) IsSpace.
Proof.
  destruct (run demoImpl demoEnv startcmdFlags [] eventFirst)
    as [s|] eqn:Hrun; [|vm_compute in Hrun; discriminate Hrun].
  refine (proj1 (proj2 (runs_are_of_the_command demoImpl demoEnv startcmdFlags []
                          eventFirst s GStartup (lit "make") [lit "all"] OsStdin ranOk
                          Hrun _))).
  vm_compute in Hrun. inversion Hrun. simpl. do 11 right. left. reflexivity.
Defined.

(** ** The report before Start *)

Lemma printFiles_exact impl l (st : MainSt impl) :
  printFiles l st
  = (inr tt,
     {| watcher := watcher st;
        done_actions :=
          done_actions st ++ map (fun pf => PrintFile (fst pf) (snd pf)) l |}).
Proof.
  revert st. induction l as [|[path name] l IH]; intros st; simpl.
  - unfold ret. rewrite app_nil_r. destruct st; reflexivity.
  - unfold bind, act. rewrite IH. simpl. rewrite <- app_assoc. reflexivity.
Qed.

Lemma report_exact impl flags (st : MainSt impl) :
  report flags st
  = (inr tt,
     {| watcher := watcher st;
        done_actions := done_actions st ++ reportActs impl flags (watcher st) |}).
Proof.
  unfold report, reportActs. destruct (listFiles flags).
  - unfold bind at 1. unfold bind at 1. unfold getWatcher at 1.
    unfold bind at 1. rewrite printFiles_exact.
    unfold act, bind, getWatcher. simpl. rewrite <- !app_assoc. reflexivity.
  - unfold bind, ret, getWatcher, act. simpl. reflexivity.
Qed.

Lemma calls_no_print mk paths oe new :
  (forall p r, isPrint (mk p r) = false) ->
  CallSeg mk paths oe new -> existsb isPrint new = false.
Proof.
  intros Hmk H.
  assert (HF : Forall (fun a => isPrint a = false) new)
    by (refine (CallSeg_Forall (fun a => isPrint a = false) Hmk _ H); reflexivity).
  clear H. induction HF as [|a l Ha _ IH]; simpl; [reflexivity|].
  rewrite Ha, IH. reflexivity.
Qed.

Lemma isPrint_registerAction flags p r : isPrint (registerAction flags p r) = false.
Proof. destruct (registerAction_cases flags) as [[_ ->]|[_ ->]]; reflexivity. Qed.

Lemma mainSetup_report impl env flags args cap st' :
  mainSetup env flags args {| watcher := New impl; done_actions := [] |} = (inr cap, st') ->
  exists pre d,
    done_actions st' = pre ++ reportActs impl flags (watcher st') ++ spawns d /\
    existsb isPrint pre = false.
Proof.
  set (st0 := {| watcher := New impl; done_actions := [] |}).
  unfold mainSetup. intros H.
  unfold bind at 1 in H.
  destruct (@resolveFiles_cases impl env args st0)
    as [(e & Ha & Hwd & Hr)|(files & Hfiles & Hr)]; rewrite Hr in H;
    [discriminate H|].
  unfold bind at 1 in H.
  destruct (@parseCmd_cases impl flags st0) as [(Hne & Hsplit & Hp)|(cap0 & Hcap & Hp)];
    rewrite Hp in H; [discriminate H|].
  unfold bind at 1, act at 1 in H.
  unfold bind at 1, getWatcher at 1 in H.
  unfold bind at 1, putWatcher at 1 in H.
  unfold bind at 1, act at 1 in H.
  unfold bind at 1 in H.
  match type of H with
  | context [ignoreLoop ?ps ?st] =>
      destruct (@ignoreLoop_seg impl ps st) as (w1 & oe & igs & Hi & Higs)
  end.
  rewrite Hi in H. destruct oe as [e|]; simpl toRes in H; cbv iota in H;
    [discriminate H|].
  unfold bind at 1, act at 1 in H.
  unfold bind at 1 in H.
  match type of H with
  | context [addLoop flags files ?st] =>
      destruct (@addLoop_seg impl flags files st) as (w2 & oe & adds & Hadd & Hadds)
  end.
  rewrite Hadd in H. destruct oe as [e|]; simpl toRes in H; cbv iota in H;
    [discriminate H|].
  unfold bind at 1 in H. rewrite report_exact in H.
  unfold bind at 1 in H.
  destruct (ParseDuration env (interval flags)) as [d|e] eqn:Hdur;
    [|unfold fatalln in H; simpl in H; discriminate H].
  unfold bind, ret, act in H. simpl in H. injection H as _ <-. simpl.
  exists (prelude flags ++ igs ++ [GoStmt GReader] ++ adds), d. split.
  - unfold spawns. rewrite <- !app_assoc. reflexivity.
  - unfold prelude. rewrite !existsb_app. simpl.
    rewrite (calls_no_print CallIgnore _ _ _ (fun _ _ => eq_refl) Higs).
    rewrite (calls_no_print _ _ _ _ (isPrint_registerAction flags) Hadds).
    reflexivity.
Qed.

(** X14. When the set-up reaches Start, what was printed is exactly the
    report, made after every registration and right before the
    goroutines are started: with -list one "path: name" line per file
    the watcher holds at that point and a blank line, then "Watching n
    files" with n the number of those files; without -list only the
    count. Nothing else is printed during the set-up. *)
Theorem report_counts_watched_files impl env flags args cap :
  fst (runMain impl env flags args) = inr cap ->
  let w := watcher (snd (runMain impl env flags args)) in
  exists pre d,
    done_actions (snd (runMain impl env flags args))
      = pre ++ reportActs impl flags w ++ spawns d /\
    existsb isPrint pre = false /\
    (listFiles flags = false ->
       reportActs impl flags w = [PrintWatching (List.length (WatchedFiles impl w))]) /\
    (listFiles flags = true ->
       List.length (reportActs impl flags w) = (List.length (WatchedFiles impl w) + 2)%nat).
Proof.
  intros Hres w. unfold runMain in *.
  destruct (mainSetup env flags args {| watcher := New impl; done_actions := [] |})
    as [res st'] eqn:H.
  simpl in Hres. subst res. simpl in w.
  destruct (mainSetup_report _ _ _ _ _ _ H) as (pre & d & Hacts & Hpre).
  exists pre, d. simpl. split; [exact Hacts|]. split; [exact Hpre|].
  unfold reportActs. split; intros ->.
  - reflexivity.
  - rewrite !length_app, length_map. simpl. lia.
Qed.

Lemma report_counts_watched_files_witness :
  exists pre d,
    done_actions (snd (runMain demoImpl demoEnv defaultFlags [lit "a"; lit "b"]))
      = pre ++ [PrintWatching 2] ++ spawns d.
Proof.
  destruct (report_counts_watched_files demoImpl demoEnv defaultFlags [lit "a"; lit "b"]
              {| cmdName := []; cmdArgs := [] |} eq_refl)
    as (pre & d & Hacts & _ & Hcount & _).
  exists pre, d. rewrite Hacts, (Hcount eq_refl). reflexivity.
Defined.

(** ** Hidden files *)

(** X15. Unless the program ends before it has a watcher (no working
    directory, or the panic on a blank -cmd), the first two things it
    does are to create the watcher and to tell it about hidden files,
    to ignore them exactly when -dotfiles is off; neither is done a
    second time. *)
Theorem hidden_files_follow_dotfiles impl env flags args :
  let acts := done_actions (snd (runMain impl env flags args)) in
  acts = [] \/ (exists e, acts = [LogFatalln e]) \/
  exists rest,
    acts = CallNew :: CallIgnoreHiddenFiles (negb (dotfiles flags)) :: rest /\
    ~ In CallNew rest /\
    forall b, ~ In (CallIgnoreHiddenFiles b) rest.
Proof.
  intros acts. unfold acts.
  pose proof (runMain_trace impl env flags args) as H.
  set (res := fst (runMain impl env flags args)) in *.
  set (tr := done_actions (snd (runMain impl env flags args))) in *.
  clearbody res tr.
  destruct H as [e| | | | | ].
  - right. left. eauto.
  - left. reflexivity.
  - right. right. eexists. split; [reflexivity|].
    split; [|intros b]; intros Hin; split_in Hin; not_in_segment Hin.
  - right. right. eexists. split; [reflexivity|].
    split; [|intros b]; intros Hin; split_in Hin; not_in_segment Hin.
  - right. right. eexists. split; [reflexivity|].
    split; [|intros b]; intros Hin; split_in Hin; not_in_segment Hin.
  - right. right. eexists. split; [reflexivity|].
    split; [|intros b]; intros Hin; unfold spawns in Hin; split_in Hin;
      not_in_segment Hin.
Qed.

Lemma hidden_files_follow_dotfiles_witness :
  exists rest,
    done_actions (snd (runMain demoImpl demoEnv defaultFlags []))
    = CallNew :: CallIgnoreHiddenFiles false :: rest.
Proof.
  destruct (hidden_files_follow_dotfiles demoImpl demoEnv defaultFlags [])
    as [H|[[e H]|(rest & H & _)]].
  - vm_compute in H. discriminate H.
  - vm_compute in H. discriminate H.
  - exists rest. exact H.
Defined.

(** ** The example programs *)

(** X16. The reader of the example programs does what the command's
    reader does when no -cmd is given, with one difference: the command
    prints watcher.ErrWatchedFileDeleted and goes on, the examples end
    the process on it as on any other error. *)
Theorem example_reader_differs_on_deleted impl flags cap c r :
  cmd flags = [] ->
  (c <> CaseError ErrWatchedFileDeleted ->
     readerBody impl flags cap c r = Example.readerBody c) /\
  readerBody impl flags cap (CaseError ErrWatchedFileDeleted) r
    = ([PrintError ErrWatchedFileDeleted], Continue) /\
  Example.readerBody (CaseError ErrWatchedFileDeleted)
    = ([LogFatalln ErrWatchedFileDeleted], Exit (Fatal ErrWatchedFileDeleted)).
Proof.
  intros Hcmd. split; [|split; reflexivity].
  intros Hc. destruct c as [event|err|]; simpl.
  - rewrite Hcmd. reflexivity.
  - destruct err; [congruence | reflexivity].
  - reflexivity.
Qed.

Lemma example_reader_differs_on_deleted_witness :
  readerBody demoImpl defaultFlags {| cmdName := []; cmdArgs := [] |}
    (CaseError notFound) noRun
  = Example.readerBody (CaseError notFound).
Proof.
  refine (proj1 (example_reader_differs_on_deleted demoImpl defaultFlags
                   {| cmdName := []; cmdArgs := [] |} (CaseError notFound) noRun
                   eq_refl) _).
  discriminate.
Defined.

(** ** Round trips through the flag values *)

Lemma Split_app_sep p s sep :
  ~ In sep p -> Split (p ++ sep :: s) sep = p :: Split s sep.
Proof.
  induction p as [|r p IH]; intros Hp; simpl.
  - rewrite N.eqb_refl. reflexivity.
  - destruct (r =? sep)%N eqn:Hr.
    + apply N.eqb_eq in Hr. exfalso. apply Hp. left. exact Hr.
    + rewrite IH; [reflexivity|]. intros Hin. apply Hp. right. exact Hin.
Qed.

Lemma Split_no_sep_id p sep : ~ In sep p -> Split p sep = [p].
Proof.
  induction p as [|r p IH]; intros Hp; simpl; [reflexivity|].
  destruct (r =? sep)%N eqn:Hr.
  - apply N.eqb_eq in Hr. exfalso. apply Hp. left. exact Hr.
  - rewrite IH; [reflexivity|]. intros Hin. apply Hp. right. exact Hin.
Qed.

Lemma Split_Join pieces sep :
  pieces <> [] -> Forall (fun p => ~ In sep p) pieces ->
  Split (Join pieces sep) sep = pieces.
Proof.
  induction pieces as [|p rest IH]; intros Hne HF; [congruence|].
  inversion HF as [|p' rest' Hp Hrest]. subst.
  destruct rest as [|q rest].
  - simpl. apply Split_no_sep_id. exact Hp.
  - change (Join (p :: q :: rest) sep) with (p ++ sep :: Join (q :: rest) sep).
    rewrite Split_app_sep by exact Hp. f_equal.
    apply IH; [discriminate | exact Hrest].
Qed.

Lemma hd_rev_last (l : gostring) : hd 0%N (rev l) = last l 0%N.
Proof.
  rewrite <- (rev_involutive l) at 2. symmetry. apply last_rev_hd.
Qed.

Lemma TrimSpace_id p : trimmedEntry p -> TrimSpace p = p.
Proof.
  intros (_ & _ & Hh & Hl). unfold TrimSpace, trimRight.
  rewrite (trimLeft_id IsSpace p Hh).
  rewrite trimLeft_id by (rewrite hd_rev_last; exact Hl).
  apply rev_involutive.
Qed.

Lemma ignoreEntries_id entries :
  Forall trimmedEntry entries -> ignoreEntries entries = entries.
Proof.
  induction 1 as [|p rest Hp _ IH]; [reflexivity|].
  unfold ignoreEntries in *. simpl. rewrite (TrimSpace_id p Hp).
  destruct Hp as (Hne & _). destruct p; [congruence|]. simpl. rewrite IH.
  reflexivity.
Qed.

(** X17. Paths that hold no comma and no white space at either end,
    joined with commas into the -ignore value, come out of the splitting
    and trimming as exactly those paths, in order: they are what [main]
    hands to [w.Ignore]. *)
Theorem ignore_value_round_trip impl env flags args entries :
  entries <> [] -> Forall trimmedEntry entries ->
  ignore flags = Join entries comma ->
  ignoreEntries (Split (ignore flags) comma) = entries /\
  exists rest,
    entries
    = map fst (pick ignoreCall (done_actions (snd (runMain impl env flags args)))) ++ rest.
Proof.
  intros Hne HF Hig.
  assert (He : ignoreEntries (Split (ignore flags) comma) = entries).
  { rewrite Hig, Split_Join.
    - apply ignoreEntries_id. exact HF.
    - exact Hne.
    - eapply Forall_impl; [|exact HF]. intros p (_ & Hc & _). exact Hc. }
  split; [exact He|].
  destruct (setup_pick_ignore (runMain_trace impl env flags args))
    as [[Hnil _]|[(pre & q & post & e0 & Hsplit & Hpick & _)|Hall]].
  - rewrite Hnil. exists entries. reflexivity.
  - rewrite Hpick, map_app, map_fst_pair. simpl. exists post.
    rewrite <- app_assoc, <- He. exact Hsplit.
  - rewrite Hall, map_fst_pair, He. exists []. symmetry. apply app_nil_r.
Qed.

Lemma ignore_value_round_trip_witness :
  ignoreEntries (Split (ignore (withIgnore ".git,vendor dir" defaultFlags)) comma)
  = [lit ".git"; lit "vendor dir"].
Proof.
  refine (proj1 (ignore_value_round_trip demoImpl demoEnv
                   (withIgnore ".git,vendor dir" defaultFlags) []
                   [lit ".git"; lit "vendor dir"] _ _ eq_refl)).
  - discriminate.
  - repeat constructor; try discriminate;
      intros H; simpl in H; repeat (destruct H as [H|H]; [discriminate H|]);
      exact H.
Defined.

Lemma fieldsLoop_word f w s c spans :
  existsb f w = false ->
  fieldsLoop f (w ++ s) (Some c) spans = fieldsLoop f s (Some (c ++ w)) spans.
Proof.
  revert c. induction w as [|r w IH]; intros c Hw; simpl.
  - rewrite app_nil_r. reflexivity.
  - simpl in Hw. apply orb_false_iff in Hw. destruct Hw as [Hr Hw].
    rewrite Hr, (IH _ Hw), <- app_assoc. reflexivity.
Qed.

Lemma fieldsLoop_Join f sp fields spans :
  fields <> [] -> forallb (isField f) fields = true -> f sp = true ->
  fieldsLoop f (Join fields sp) None spans = spans ++ fields.
Proof.
  revert spans. induction fields as [|w rest IH]; intros spans Hne HF Hsp;
    [congruence|].
  simpl in HF. apply andb_prop in HF. destruct HF as [Hw Hrest].
  unfold isField in Hw. apply andb_prop in Hw. destruct Hw as [Hw1 Hw2].
  apply negb_true_iff in Hw2.
  destruct w as [|r w]; [discriminate Hw1|].
  simpl in Hw2. apply orb_false_iff in Hw2. destruct Hw2 as [Hr Hw].
  destruct rest as [|w2 rest].
  - simpl. rewrite Hr.
    pose proof (fieldsLoop_word f w [] [r] spans Hw) as E.
    simpl in E. etransitivity; [|exact E].
    f_equal. symmetry. apply app_nil_r.
  - change (Join ((r :: w) :: w2 :: rest) sp)
      with (r :: w ++ sp :: Join (w2 :: rest) sp).
    simpl fieldsLoop at 1. rewrite Hr, (fieldsLoop_word f w _ [r] spans Hw).
    simpl fieldsLoop at 1. rewrite Hsp.
    rewrite IH; [|discriminate|exact Hrest|exact Hsp].
    rewrite <- app_assoc. reflexivity.
Qed.

(** X18. A command written as words with one space between them is
    parsed into exactly those words: the first is the program name, the
    others the arguments, whatever the words are as long as none is
    empty or holds white space. *)
Theorem cmd_words_round_trip impl flags (st : MainSt impl) name rest :
  forallb (isField IsSpace) (name :: rest) = true ->
  cmd flags = Join (name :: rest) space ->
  parseCmd flags st = (inr {| cmdName := name; cmdArgs := rest |}, st).
Proof.
  intros HF Hcmd.
  assert (Hsplit : FieldsFunc (cmd flags) IsSpace = name :: rest).
  { unfold FieldsFunc. rewrite Hcmd.
    rewrite (fieldsLoop_Join IsSpace space (name :: rest) []);
      [reflexivity | discriminate | exact HF | reflexivity]. }
  assert (Hne : cmd flags <> []).
  { intros Hnil. rewrite Hnil in Hsplit. discriminate Hsplit. }
  unfold parseCmd. destruct (cmd flags) as [|c cs] eqn:Hc; [congruence|].
  simpl negb. cbv iota. rewrite Hsplit. simpl. destruct rest; reflexivity.
Qed.

Lemma cmd_words_round_trip_witness :
  fst (parseCmd (withCmd "go test ./..." defaultFlags)
         {| watcher := New demoImpl; done_actions := [] |})
  = inr {| cmdName := lit "go"; cmdArgs := [lit "test"; lit "./..."] |}.
Proof.
  rewrite (cmd_words_round_trip demoImpl (withCmd "go test ./..." defaultFlags)
             {| watcher := New demoImpl; done_actions := [] |}
             (lit "go") [lit "test"; lit "./..."] eq_refl eq_refl).
  reflexivity.
Defined.
